(** * swe-pipeline: tokenizer, abbreviation resolver and sentence grouper

    A shallow embedding of the text-processing core of [swe-pipeline.py]
    ([PeekableIterator], [tokenizer_re], [tokenize], [join_abbrevs] and
    [group_sentences]) together with the properties its specification
    states about it.

    Python values are embedded as follows.
    - A [str] is the list of its Unicode code points.
    - [None] and a [str] share a stream: an item is an [option str].
    - A generator is the finite list of the items it yields, together with
      the way its body ends.
    - The abbreviation table is a [dict] from tuples to strings: a [gmap]
      whose keys are lists of items. *)

From Stdlib Require Import NArith String Ascii.
From stdpp Require Import gmap list.

Local Open Scope N_scope.
Local Open Scope nat_scope.

(** ** Strings *)

Definition codepoint := N.
Definition str := list codepoint.

Definition ord (a : ascii) : codepoint := N_of_ascii a.

(** UTF-8 decoding of a literal of this file into the code points of the
    Python string it stands for. *)
Fixpoint utf8 (pending : nat) (acc : N) (bs : list N) : str :=
  match bs with
  | [] => []
  | b :: bs' =>
      match pending with
      | S p =>
          let acc' := (acc * 64 + b mod 64)%N in
          match p with
          | 0 => acc' :: utf8 0 0%N bs'
          | _ => utf8 p acc' bs'
          end
      | 0 =>
          if (b <? 128)%N then b :: utf8 0 0%N bs'
          else if (b <? 224)%N then utf8 1 (b mod 32)%N bs'
          else if (b <? 240)%N then utf8 2 (b mod 16)%N bs'
          else utf8 3 (b mod 8)%N bs'
      end
  end.

Definition u (s : string) : str :=
  utf8 0 0%N (map N_of_ascii (list_ascii_of_string s)).

(** The character tests of the interpreter that the source relies on:
    [\s] is [isspace], [\d] is [isdecimal], [\w] is [isalnum] or an
    underscore, and [str.isupper] on a one-character string. *)
Class Unicode := {
  isspace : codepoint → bool;
  isalnum : codepoint → bool;
  isdecimal : codepoint → bool;
  isupper : codepoint → bool
}.

(** ** Regular expressions (the fragment of [re] used by [tokenizer_re]) *)

Inductive group := para | char.

Inductive regex :=
| Chr (c : codepoint)              (* a literal character *)
| Cls (p : codepoint → bool)       (* a character class *)
| Cat (r1 r2 : regex)              (* r1 r2 *)
| Alt (r1 r2 : regex)              (* r1 | r2 *)
| Star (r : regex)                 (* r*  (greedy) *)
| Plus (r : regex)                 (* r+  (greedy) *)
| Opt (r : regex)                  (* r?  (greedy) *)
| Ahead (r : regex)                (* (?=r) *)
| Named (g : group) (r : regex)    (* (?P<g>r) *)
| Backref (g : group).             (* (?P=g) *)

Definition captures := group → option str.

Definition no_captures : captures := λ _, None.

Definition capture (g : group) (m : str) (e : captures) : captures :=
  λ g', match g, g' with
        | para, para | char, char => Some m
        | _, _ => e g'
        end.

(** [strip_prefix m s]: the rest of [s] after the literal text [m]. *)
Fixpoint strip_prefix (m s : str) : option str :=
  match m, s with
  | [], _ => Some s
  | c :: m', c' :: s' => if (c =? c')%N then strip_prefix m' s' else None
  | _ :: _, [] => None
  end.

(** Greedy repetition: one more round of [body] is tried first, and the
    continuation only when that fails.  A round that consumes nothing ends
    the repetition. *)
Fixpoint star_loop {A} (body : str → captures → (str → captures → option A) → option A)
    (n : nat) (s : str) (e : captures) (k : str → captures → option A) : option A :=
  match n with
  | 0 => k s e
  | S n' =>
      match body s e (λ s' e', if length s' <? length s
                               then star_loop body n' s' e' k else None) with
      | Some a => Some a
      | None => k s e
      end
  end.

(** The backtracking matcher: [run r s e k] matches [r] at the start of
    [s] and hands the rest of the text to [k]; the first success in the
    order in which [re] explores the choices is the answer. *)
Fixpoint run (A : Type) (r : regex) (s : str) (e : captures)
    (k : str → captures → option A) {struct r} : option A :=
  match r with
  | Chr c =>
      match s with
      | c' :: s' => if (c =? c')%N then k s' e else None
      | [] => None
      end
  | Cls p =>
      match s with
      | c' :: s' => if p c' then k s' e else None
      | [] => None
      end
  | Cat r1 r2 => run A r1 s e (λ s' e', run A r2 s' e' k)
  | Alt r1 r2 =>
      match run A r1 s e k with
      | Some a => Some a
      | None => run A r2 s e k
      end
  | Star r1 => star_loop (run A r1) (length s) s e k
  | Plus r1 => run A r1 s e (λ s' e', star_loop (run A r1) (length s') s' e' k)
  | Opt r1 =>
      match run A r1 s e k with
      | Some a => Some a
      | None => k s e
      end
  | Ahead r1 =>
      match run captures r1 s e (λ _ e', Some e') with
      | Some e' => k s e'
      | None => None
      end
  | Named g r1 =>
      run A r1 s e (λ s' e', k s' (capture g (take (length s - length s') s) e'))
  | Backref g =>
      match e g with
      | Some m =>
          match strip_prefix m s with
          | Some s' => k s' e
          | None => None
          end
      | None => None
      end
  end.

Arguments run {A} r s e k.

(** [consumes r]: syntactically, every match of [r] takes a character. *)
Fixpoint consumes (r : regex) : bool :=
  match r with
  | Chr _ | Cls _ => true
  | Cat r1 r2 => consumes r1 || consumes r2
  | Alt r1 r2 => consumes r1 && consumes r2
  | Plus r1 | Named _ r1 => consumes r1
  | Star _ | Opt _ | Ahead _ | Backref _ => false
  end.

(** A match object, as far as [tokenize] looks at it. *)
Record Match := { group0 : str; group_para : option str }.

(** What the scan of [finditer] does with the text, left to right: a
    character at which the pattern does not match is passed over, a match
    is reported and the scan goes on behind it. *)
Inductive scanned :=
| Skipped (c : codepoint)
| Matched (m : Match).

Definition scanned_text (x : scanned) : str :=
  match x with
  | Skipped c => [c]
  | Matched m => group0 m
  end.

Definition scanned_match (x : scanned) : option Match :=
  match x with
  | Skipped _ => None
  | Matched m => Some m
  end.

Section Lexer.
Context `{Unicode}.

Definition w : regex := Cls (λ c, isalnum c || (c =? ord "_")%N).
Definition d : regex := Cls isdecimal.
Definition s_ : regex := Cls isspace.
Definition S_ : regex := Cls (λ c, negb (isspace c)).
Definition one_of (cs : str) : regex := Cls (λ c, bool_decide (c ∈ cs)).
Definition none_of (cs : str) : regex := Cls (λ c, negb (bool_decide (c ∈ cs))).
Definition newline : codepoint := 10%N.

(** [tokenizer_re], alternative by alternative (the pattern is compiled
    with [re.VERBOSE]: its blanks and comments are not part of it). *)
Definition word_like : regex :=
  (* \w+(?:(?=[^/])\S\w+)*-? *)
  Cat (Plus w)
      (Cat (Star (Cat (Ahead (none_of (u "/"))) (Cat S_ (Plus w))))
           (Opt (Chr (ord "-")))).

Definition numeric : regex :=
  (* [+.]?\d+(?:[\s:/,.-]\d+)* *)
  Cat (Opt (one_of (u "+.")))
      (Cat (Plus d)
           (Star (Cat (Alt s_ (one_of (u ":/,.-"))) (Plus d)))).

Definition paragraph_break : regex :=
  (* (?P<para>\n(\s*\n)+) *)
  Named para (Cat (Chr newline) (Plus (Cat (Star s_) (Chr newline)))).

Definition repeated : regex :=
  (* (?P<char>\S)(?P=char)+ *)
  Cat (Named char S_) (Plus (Backref char)).

Definition tokenizer_re : regex :=
  Alt word_like (Alt numeric (Alt paragraph_break (Alt repeated S_))).

(** [tokenizer_re.match] at the start of [s]: the match and the rest. *)
Definition match_at (r : regex) (s : str) : option (Match * str) :=
  run r s no_captures
    (λ s' e, Some ({| group0 := take (length s - length s') s;
                      group_para := e para |}, s')).

Fixpoint scan (fuel : nat) (s : str) : list scanned :=
  match fuel, s with
  | S fuel', c :: s' =>
      match match_at tokenizer_re s with
      | Some (m, rest) => Matched m :: scan fuel' rest
      | None => Skipped c :: scan fuel' s'
      end
  | _, _ => []
  end.

Definition finditer (data : str) : list Match :=
  omap scanned_match (scan (length data) data).

Definition token_of (m : Match) : option str :=
  match group_para m with
  | Some _ => None            (* yield None *)
  | None => Some (group0 m)   (* yield match.group(0) *)
  end.

Definition tokenize (data : str) : list (option str) :=
  token_of <$> finditer data.
End Lexer.

(** ** Exceptions and generators *)

Inductive exn := StopIteration | IndexError | KeyError | RuntimeError.

Inductive result (A : Type) :=
| Ok (a : A)
| Raise (e : exn).

Arguments Ok {A} a.
Arguments Raise {A} e.

(** How the body of a generator ends: it returns, or an exception leaves
    it.  ([StopIteration] leaving the body of a generator is the case of
    PEP 479: since Python 3.7 the consumer receives it as a
    [RuntimeError], before that the generator simply ended.) *)
Inductive ending :=
| Returned
| Uncaught (e : exn).

(** A generator run to its end. *)
Record generated (A : Type) := { yielded : list A; ending_of : ending }.

Arguments yielded {A} g.
Arguments ending_of {A} g.

(** ** [PeekableIterator] *)

Definition item := option str.

Record PeekableIterator := { _iterable : list item; _cache : list item }.

Definition PeekableIterator_init (iterable : list item) : PeekableIterator :=
  {| _iterable := iterable; _cache := [] |}.

(** [while len(self._cache) < n: self._cache.append(next(self._iterable))],
    [k] being the number of rounds that are left. *)
Fixpoint fill (k : nat) (self : PeekableIterator) : PeekableIterator * result () :=
  match k with
  | 0 => (self, Ok ())
  | S k' =>
      match _iterable self with
      | [] => (self, Raise StopIteration)
      | x :: rest =>
          fill k' {| _iterable := rest; _cache := _cache self ++ [x] |}
      end
  end.

Definition _fill_cache (n : option nat) (self : PeekableIterator)
    : PeekableIterator * result () :=
  let n := default 1 n in
  fill (n - length (_cache self)) self.

(** [__next__(self)], with [n] left at [None]. *)
Definition next (self : PeekableIterator) : PeekableIterator * result item :=
  match _fill_cache None self with
  | (self, Raise e) => (self, Raise e)
  | (self, Ok _) =>
      match _cache self with
      | value :: cache =>
          ({| _iterable := _iterable self; _cache := cache |}, Ok value)
      | [] => (self, Raise IndexError)
      end
  end.

(** [peek(self)], with [n] left at [None]. *)
Definition peek1 (self : PeekableIterator) : PeekableIterator * result item :=
  match _fill_cache None self with
  | (self, Raise e) => (self, Raise e)
  | (self, Ok _) =>
      match _cache self with
      | value :: _ => (self, Ok value)
      | [] => (self, Raise IndexError)
      end
  end.

(** [peek(self, n)]. *)
Definition peek (n : nat) (self : PeekableIterator)
    : PeekableIterator * result (list item) :=
  match _fill_cache (Some n) self with
  | (self, Raise e) => (self, Raise e)
  | (self, Ok _) =>
      if decide (n ≤ length (_cache self))
      then (self, Ok (take n (_cache self)))
      else (self, Raise IndexError)
  end.

(** [for _ in range(k): next(tokens)]. *)
Fixpoint skip (k : nat) (tokens : PeekableIterator) : PeekableIterator * result () :=
  match k with
  | 0 => (tokens, Ok ())
  | S k' =>
      match next tokens with
      | (tokens, Raise e) => (tokens, Raise e)
      | (tokens, Ok _) => skip k' tokens
      end
  end.

(** ** [join_abbrevs] *)

Definition prefixes_of (abbrev : list item) : list (list item) :=
  (λ i, take (i + 1) abbrev) <$> seq 0 (length abbrev).

Definition abbrev_prefixes (abbrevs : gmap (list item) str) : gset (list item) :=
  ⋃ ((λ abbrev, list_to_set (prefixes_of abbrev)) <$> elements (dom abbrevs)).

Definition max_abbrev_length (abbrevs : gmap (list item) str) : nat :=
  match elements (dom abbrevs) with
  | [] => 0
  | keys => max_list (length <$> keys)
  end.

Section Resolver.
Context `{Unicode}.
Variable abbrevs : gmap (list item) str.
Variable prefixes : gset (list item).

(** The inner loop, [for i in range(max_abbrev_length)], from round [i]
    on with [n] rounds left; the result is [longest_candidate]. *)
Fixpoint lookahead (token : item) (n i : nat) (tokens : PeekableIterator)
    : PeekableIterator * result (option (list item)) :=
  match n with
  | 0 => (tokens, Ok None)
  | S n' =>
      match peek (i + 1) tokens with
      | (tokens, Raise StopIteration) => (tokens, Ok None)
      | (tokens, Raise e) => (tokens, Raise e)
      | (tokens, Ok ahead) =>
          let candidate := token :: ahead in
          if decide (candidate ∉ prefixes) then (tokens, Ok None)
          else if decide (is_Some (abbrevs !! candidate)) then
            match peek (i + 1) tokens with
            | (tokens, Raise StopIteration) => (tokens, Ok None)
            | (tokens, Raise e) => (tokens, Raise e)
            | (tokens, Ok ahead') =>
                match last ahead' with
                | None => (tokens, Raise IndexError)
                | Some next_token =>
                    if decide (token = Some (u ".") ∧ next_token = None)
                    then (tokens, Ok None)
                    else (tokens, Ok (Some candidate))
                end
            end
          else lookahead token n' (i + 1) tokens
      end
  end.

(** The test of the sentence segmentation, in the order in which [and]
    evaluates it. *)
Definition boundary (was_abbrev : bool) (token next_token : item) : result bool :=
  match token, next_token with
  | Some token, Some next_token =>
      if was_abbrev then Ok false
      else
        match last token with
        | None => Raise IndexError
        | Some c =>
            if bool_decide (c ∈ u ".:!?") then
              match next_token with
              | c0 :: _ => Ok (isupper c0)
              | [] => Raise IndexError
              end
            else Ok false
        end
  | _, _ => Ok false
  end.

(** One round of [for token in tokens]: what it yields, the iterator
    afterwards, and [was_abbrev] afterwards unless an exception leaves
    the round. *)
Definition iteration (max_length : nat) (was_abbrev : bool) (token : item)
    (tokens : PeekableIterator) : list item * PeekableIterator * result bool :=
  if decide ([token] ∈ prefixes) then
    match lookahead token max_length 0 tokens with
    | (tokens, Raise e) => ([], tokens, Raise e)
    | (tokens, Ok (Some ((_ :: _) as longest_candidate))) =>
        match skip (length longest_candidate - 1) tokens with
        | (tokens, Raise e) => ([], tokens, Raise e)
        | (tokens, Ok _) =>
            match abbrevs !! longest_candidate with
            | Some abbrev => ([Some abbrev], tokens, Ok true)
            | None => ([], tokens, Raise KeyError)
            end
        end
    | (tokens, Ok _) => ([token], tokens, Ok was_abbrev)
    end
  else
    match peek1 tokens with
    | (tokens, Raise e) => ([token], tokens, Raise e)
    | (tokens, Ok next_token) =>
        match boundary was_abbrev token next_token with
        | Raise e => ([token], tokens, Raise e)
        | Ok true => ([token; None], tokens, Ok false)
        | Ok false => ([token], tokens, Ok false)
        end
    end.

Fixpoint loop (max_length fuel : nat) (was_abbrev : bool) (tokens : PeekableIterator)
    : generated item :=
  match fuel with
  | 0 => {| yielded := []; ending_of := Returned |}
  | S fuel' =>
      match next tokens with
      | (_, Raise StopIteration) => {| yielded := []; ending_of := Returned |}
      | (_, Raise e) => {| yielded := []; ending_of := Uncaught e |}
      | (tokens, Ok token) =>
          match iteration max_length was_abbrev token tokens with
          | (out, _, Raise e) => {| yielded := out; ending_of := Uncaught e |}
          | (out, tokens, Ok was_abbrev) =>
              let g := loop max_length fuel' was_abbrev tokens in
              {| yielded := out ++ yielded g; ending_of := ending_of g |}
          end
      end
  end.
End Resolver.

Definition join_abbrevs `{Unicode} (abbrevs : gmap (list item) str) (tokens : list item)
    : generated item :=
  let prefixes := abbrev_prefixes abbrevs in
  let max_length := max_abbrev_length abbrevs in
  loop abbrevs prefixes max_length (S (length tokens)) false
       (PeekableIterator_init tokens).

(** ** [group_sentences] *)

Fixpoint group_from (sentence : list str) (tokens : list item) : list (list str) :=
  match tokens with
  | [] => match sentence with [] => [] | _ => [sentence] end
  | None :: tokens' =>
      match sentence with [] => [] | _ => [sentence] end ++ group_from [] tokens'
  | Some token :: tokens' => group_from (sentence ++ [token]) tokens'
  end.

Definition group_sentences (tokens : list item) : list (list str) :=
  group_from [] tokens.

(** What the consumer of a generator receives when its body ends: a
    [StopIteration] that leaves the body reaches the consumer as a
    [RuntimeError] (PEP 479), any other exception as it is. *)
Definition received (e : ending) : ending :=
  match e with
  | Uncaught StopIteration => Uncaught RuntimeError
  | _ => e
  end.

(** [group_sentences] fed by a generator that ends in [upstream]: the
    loop of [group_from], then the last [if sentence: yield sentence]
    when the generator is exhausted; an exception received from the
    generator leaves [group_sentences] from inside its [for] statement,
    before that last [yield]. *)
Fixpoint group_run (sentence : list str) (tokens : list item) (upstream : ending)
    : generated (list str) :=
  match tokens with
  | [] =>
      match upstream with
      | Returned =>
          {| yielded := match sentence with [] => [] | _ => [sentence] end;
             ending_of := Returned |}
      | Uncaught e => {| yielded := []; ending_of := Uncaught e |}
      end
  | None :: tokens' =>
      let g := group_run [] tokens' upstream in
      {| yielded := match sentence with [] => [] | _ => [sentence] end ++ yielded g;
         ending_of := ending_of g |}
  | Some token :: tokens' => group_run (sentence ++ [token]) tokens' upstream
  end.

Definition group_sentences_of (tokens : generated item) : generated (list str) :=
  group_run [] (yielded tokens) (received (ending_of tokens)).

(** ** The pipeline of the main program *)

Section Pipeline.
Context `{Unicode}.

Fixpoint lstrip (s : str) : str :=
  match s with
  | c :: s' => if isspace c then lstrip s' else s
  | [] => []
  end.

Definition strip (s : str) : str := reverse (lstrip (reverse (lstrip s))).

Definition marked (abbrevs : gmap (list item) str) (data : str) : generated item :=
  join_abbrevs abbrevs (tokenize (strip data)).

(** [group_sentences(marked)], run to its end. *)
Definition grouped (abbrevs : gmap (list item) str) (data : str)
    : generated (list str) :=
  group_sentences_of (marked abbrevs data).

(** The sentences the pipeline hands out. *)
Definition sentences (abbrevs : gmap (list item) str) (data : str) : list (list str) :=
  yielded (grouped abbrevs data).
End Pipeline.

(** The character tests on the Latin-1 block, U+0000 to U+00FF, as the
    Unicode database of the interpreter has them; code points beyond it
    are outside this table. *)
Definition between (lo hi c : N) : bool := ((lo <=? c) && (c <=? hi))%N.

Definition latin1_isspace (c : codepoint) : bool :=
  between 9 13 c || between 28 32 c || (c =? 133)%N || (c =? 160)%N.

Definition latin1_isdecimal (c : codepoint) : bool := between 48 57 c.

Definition latin1_isupper (c : codepoint) : bool :=
  between 65 90 c || between 192 214 c || between 216 222 c.

Definition latin1_isalnum (c : codepoint) : bool :=
  between 48 57 c || between 65 90 c || between 97 122 c
  || (c =? 170)%N || between 178 179 c || (c =? 181)%N
  || between 185 186 c || between 188 190 c
  || between 192 214 c || between 216 246 c || between 248 255 c.

Definition latin1 : Unicode :=
  {| isspace := latin1_isspace; isalnum := latin1_isalnum;
     isdecimal := latin1_isdecimal; isupper := latin1_isupper |}.

Definition dr_table : gmap (list item) str :=
  {[ [Some (u "Dr"); Some (u ".")] := u "Dr." ]}.

(** ** Notions used in the statements *)

(** [k] succeeds with [a] somewhere at or behind the start of [s]. *)
Definition lands {A} (k : str → captures → option A) (s : str) (a : A) : Prop :=
  ∃ s' e', s' `suffix_of` s ∧ k s' e' = Some a.

(** The same, strictly behind the start of [s]. *)
Definition lands_further {A} (k : str → captures → option A) (s : str) (a : A) : Prop :=
  ∃ s' e', s' `suffix_of` s ∧ length s' < length s ∧ k s' e' = Some a.

Section Covering.
Context `{Unicode}.

(** A piece of the scan is in order: only whitespace is passed over,
    and a match is never empty. *)
Definition scanned_ok (x : scanned) : Prop :=
  match x with
  | Skipped c => isspace c = true
  | Matched m => group0 m ≠ []
  end.

(** Where the characters of a piece go: a passed-over character is
    whitespace; a span is yielded as the token that is its text, or it
    is yielded as a marker and then holds whitespace and newlines
    only. *)
Definition scanned_classified (x : scanned) : Prop :=
  match x with
  | Skipped c => isspace c = true
  | Matched m =>
      group0 m ≠ []
      ∧ (token_of m = Some (group0 m)
         ∨ (token_of m = None
            ∧ Forall (λ c, isspace c = true ∨ c = newline) (group0 m)))
  end.
End Covering.

(** What is left of the stream: the items peeked at and not yet taken,
    then those the underlying iterator has not given yet. *)
Definition remaining (self : PeekableIterator) : list item :=
  _cache self ++ _iterable self.

(** ** The Resolver on what is left of the stream

    [first_match] and [resolve] are [lookahead] and [loop] with the
    iterator replaced by the list of items it still has to give
    ([lookahead_view] and [loop_view] relate them). *)

Section ResolverView.
Context `{Unicode}.
Variable abbrevs : gmap (list item) str.
Variable prefixes : gset (list item).

Fixpoint first_match (token : item) (n i : nat) (rest : list item)
    : option (list item) :=
  match n with
  | 0 => None
  | S n' =>
      if decide (i + 1 ≤ length rest) then
        let candidate := token :: take (i + 1) rest in
        if decide (candidate ∉ prefixes) then None
        else if decide (is_Some (abbrevs !! candidate)) then
          if decide (token = Some (u ".") ∧ last (take (i + 1) rest) = Some None)
          then None else Some candidate
        else first_match token n' (i + 1) rest
      else None
  end.

Definition yield_then (out : list item) (g : generated item) : generated item :=
  {| yielded := out ++ yielded g; ending_of := ending_of g |}.

Fixpoint resolve (max_length fuel : nat) (was_abbrev : bool) (rest : list item)
    : generated item :=
  match fuel, rest with
  | S fuel', token :: rest =>
      if decide ([token] ∈ prefixes) then
        match first_match token max_length 0 rest with
        | Some longest_candidate =>
            match abbrevs !! longest_candidate with
            | Some abbrev =>
                yield_then [Some abbrev]
                  (resolve max_length fuel' true
                     (drop (length longest_candidate - 1) rest))
            | None => {| yielded := []; ending_of := Uncaught KeyError |}
            end
        | None => yield_then [token] (resolve max_length fuel' was_abbrev rest)
        end
      else
        match rest with
        | [] => {| yielded := [token]; ending_of := Uncaught StopIteration |}
        | next_token :: _ =>
            match boundary was_abbrev token next_token with
            | Raise e => {| yielded := [token]; ending_of := Uncaught e |}
            | Ok true => yield_then [token; None] (resolve max_length fuel' false rest)
            | Ok false => yield_then [token] (resolve max_length fuel' false rest)
            end
        end
  | _, _ => {| yielded := []; ending_of := Returned |}
  end.

(** The sentence-boundary heuristic in the words of the specification:
    both items are tokens, the previous emission was not an
    abbreviation, the token ends in one of [. : ! ?] and the next token
    starts with an uppercase letter. *)
Definition breaks_after (was_abbrev : bool) (token next_token : item) : bool :=
  match token, next_token with
  | Some token, Some next_token =>
      negb was_abbrev
      && from_option (λ c, bool_decide (c ∈ u ".:!?")) false (last token)
      && from_option isupper false (head next_token)
  | _, _ => false
  end.

(** The passthrough of the specification: every item in order, and a
    marker behind each token after which the heuristic sees a break. *)
Fixpoint passthrough (tokens : list item) : list item :=
  match tokens with
  | [] => []
  | token :: rest =>
      match rest with
      | next_token :: _ =>
          if breaks_after false token next_token
          then token :: None :: passthrough rest
          else token :: passthrough rest
      | [] => [token]
      end
  end.
End ResolverView.

Definition ab_table : gmap (list item) str :=
  {[ [Some (u "a"); Some (u "b")] := u "AB";
     [Some (u "a"); Some (u "b"); Some (u "c")] := u "ABC" ]}.

(** Two entries of [ABBREVS], the second of which extends the first. *)
Definition m_fl_table : gmap (list item) str :=
  {[ [Some (u "m"); Some (u "fl")] := u "m_fl";
     [Some (u "m"); Some (u "fl"); Some (u ".")] := u "m_fl." ]}.

Definition dot_table : gmap (list item) str :=
  {[ [Some (u "."); Some (u "a")] := u ".a" ]}.

(** ** [PeekableIterator.__next__] with a number

    [value = [self._cache.pop(0) for i in range(n)]]: [pops] is the list
    comprehension, with the cache it leaves. *)
Fixpoint pops (k : nat) (cache : list item) : list item * result (list item) :=
  match k with
  | 0 => (cache, Ok [])
  | S k' =>
      match cache with
      | [] => ([], Raise IndexError)
      | value :: cache =>
          match pops k' cache with
          | (cache, Ok values) => (cache, Ok (value :: values))
          | (cache, Raise e) => (cache, Raise e)
          end
      end
  end.

Definition next_n (n : nat) (self : PeekableIterator)
    : PeekableIterator * result (list item) :=
  match _fill_cache (Some n) self with
  | (self, Raise e) => (self, Raise e)
  | (self, Ok _) =>
      let '(cache, value) := pops n (_cache self) in
      ({| _iterable := _iterable self; _cache := cache |}, value)
  end.

(** ** What a pattern can take and what it captures *)

(** [accepts r c]: some character class or literal of [r], outside its
    lookaheads, takes the character [c]. *)
Fixpoint accepts (r : regex) (c : codepoint) : Prop :=
  match r with
  | Chr c' => c = c'
  | Cls p => p c = true
  | Cat r1 r2 | Alt r1 r2 => accepts r1 c ∨ accepts r2 c
  | Star r1 | Plus r1 | Opt r1 | Named _ r1 => accepts r1 c
  | Ahead _ | Backref _ => False
  end.

(** [plain r]: [r] has no backreference. *)
Fixpoint plain (r : regex) : bool :=
  match r with
  | Chr _ | Cls _ | Ahead _ => true
  | Cat r1 r2 | Alt r1 r2 => plain r1 && plain r2
  | Star r1 | Plus r1 | Opt r1 | Named _ r1 => plain r1
  | Backref _ => false
  end.

(** [no_para r]: [r] has no group named [para]. *)
Fixpoint no_para (r : regex) : bool :=
  match r with
  | Chr _ | Cls _ | Backref _ => true
  | Cat r1 r2 | Alt r1 r2 => no_para r1 && no_para r2
  | Star r1 | Plus r1 | Opt r1 | Ahead r1 => no_para r1
  | Named para _ => false
  | Named char r1 => no_para r1
  end.

(** [k] succeeds with [a] behind a piece of [s] all of whose characters
    satisfy [P]. *)
Definition lands_after {A} (P : codepoint → Prop) (k : str → captures → option A)
    (s : str) (a : A) : Prop :=
  ∃ p s' e', s = p ++ s' ∧ Forall P p ∧ k s' e' = Some a.

(** [k] succeeds with [a] under captures that agree with [e] on [para]. *)
Definition lands_with_para {A} (k : str → captures → option A) (e : captures)
    (a : A) : Prop :=
  ∃ s' e', k s' e' = Some a ∧ e' para = e para.

(** ** [tagged_to_tagged_conll] *)

Definition tab : codepoint := 9%N.
Definition bar : codepoint := ord "|".

(** [s.split(sep)] for a separator of one character. *)
Fixpoint split_on (sep : codepoint) (s : str) : list str :=
  match s with
  | [] => [[]]
  | c :: s' =>
      if (c =? sep)%N then [] :: split_on sep s'
      else
        match split_on sep s' with
        | field :: fields => (c :: field) :: fields
        | [] => [[c]]
        end
  end.

(** [sep in s], and then [s.split(sep, 1)]: the text before the first
    separator and the text behind it; [None] when [sep] is not in [s]. *)
Fixpoint split_once (sep : codepoint) (s : str) : option (str * str) :=
  match s with
  | [] => None
  | c :: s' =>
      if (c =? sep)%N then Some ([], s')
      else
        match split_once sep s' with
        | Some (before, behind) => Some (c :: before, behind)
        | None => None
        end
  end.

(** ["%d" % n]. *)
Fixpoint digits (n : Decimal.uint) : str :=
  match n with
  | Decimal.Nil => []
  | Decimal.D0 n => 48%N :: digits n
  | Decimal.D1 n => 49%N :: digits n
  | Decimal.D2 n => 50%N :: digits n
  | Decimal.D3 n => 51%N :: digits n
  | Decimal.D4 n => 52%N :: digits n
  | Decimal.D5 n => 53%N :: digits n
  | Decimal.D6 n => 54%N :: digits n
  | Decimal.D7 n => 55%N :: digits n
  | Decimal.D8 n => 56%N :: digits n
  | Decimal.D9 n => 57%N :: digits n
  end.

Definition percent_d (n : nat) : str := digits (Nat.to_uint n).

(** The fields with one [sep] between each two. *)
Fixpoint join (sep : codepoint) (fields : list str) : str :=
  match fields with
  | [] => []
  | [field] => field
  | field :: fields => field ++ sep :: join sep fields
  end.

(** What a run of [tagged_to_tagged_conll] has printed, one entry for
    each [print], and the exception that ended it, if one did. *)
Record written := { printed : list str; raised : option exn }.

Section Conll.
Context `{Unicode}.

(** The columns of the row for the stripped line [line], token number
    [t_id]: [None] where [fields[1]] raises [IndexError]. *)
Definition columns (t_id : nat) (line : str) : option (list str) :=
  match split_on tab line with
  | token :: tag :: fields =>
      let lemma := match fields with
                   | [] => u "_"
                   | lemma :: _ => lemma
                   end in
      let '(pos, morph) := match split_once bar tag with
                           | Some (pos, morph) => (pos, morph)
                           | None => (tag, u "_")
                           end in
      Some [percent_d t_id; token; lemma; pos; pos; morph]
  | _ => None
  end.

(** The loop [for line in tagged], from the counters [s_id] and [t_id]. *)
Fixpoint conll_from (s_id t_id : nat) (tagged : list str) : written :=
  match tagged with
  | [] => {| printed := []; raised := None |}
  | line :: tagged' =>
      let line := strip line in
      match line with
      | [] =>
          let out := conll_from (s_id + 1) 1 tagged' in
          {| printed := line :: printed out; raised := raised out |}
      | _ =>
          match columns t_id line with
          | None => {| printed := []; raised := Some IndexError |}
          | Some cols =>
              let out := conll_from s_id (t_id + 1) tagged' in
              {| printed := join tab cols :: printed out; raised := raised out |}
          end
      end
  end.

Definition tagged_to_tagged_conll (tagged : list str) : written :=
  conll_from 1 1 tagged.

(** A line of a tag file that [tagged_to_tagged_conll] can read: blank,
    or with a tab in it once stripped. *)
Definition readable (line : str) : Prop :=
  strip line = [] ∨ tab ∈ strip line.
End Conll.

(** * Properties *)

(** ** The matcher *)

Lemma strip_prefix_suffix (m s s' : str) :
  strip_prefix m s = Some s' → s' `suffix_of` s.
Proof.
  revert s. induction m as [|c m IH]; intros [|c' s]; simpl; try done.
  - by intros [= ->].
  - by intros [= ->].
  - destruct (c =? c')%N; [|done].
    intros Hs. apply suffix_cons_r. by apply IH.
Qed.

Lemma lands_further_lands {A} (k : str → captures → option A) s a :
  lands_further k s a → lands k s a.
Proof. intros (s' & e' & ? & _ & ?). by exists s', e'. Qed.

Lemma lands_trans {A} (k k' : str → captures → option A) s a :
  lands k' s a →
  (∀ s' e', s' `suffix_of` s → k' s' e' = Some a → lands k s' a) →
  lands k s a.
Proof.
  intros (s1 & e1 & Hs1 & Hk') Hstep.
  destruct (Hstep s1 e1 Hs1 Hk') as (s2 & e2 & Hs2 & Hk).
  exists s2, e2. split; [by etrans|done].
Qed.

Lemma star_loop_lands {A} (body : str → captures → (str → captures → option A) → option A)
    (n : nat) (s : str) (e : captures) (k : str → captures → option A) (a : A) :
  (∀ s e k a, body s e k = Some a → lands k s a) →
  star_loop body n s e k = Some a → lands k s a.
Proof.
  intros Hbody. revert s e. induction n as [|n IH]; intros s e; simpl.
  - intros Hk. by exists s, e.
  - destruct (body s e _) as [a'|] eqn:Hb.
    + intros [= ->]. apply Hbody in Hb.
      eapply lands_trans; [exact Hb|]. intros s' e' Hs'. simpl.
      destruct (length s' <? length s); [|done].
      intros Hloop. by apply IH in Hloop.
    + intros Hk. by exists s, e.
Qed.

Lemma run_lands r : ∀ A s e (k : str → captures → option A) a,
  run r s e k = Some a → lands k s a.
Proof.
  induction r as [c|p|r1 IH1 r2 IH2|r1 IH1 r2 IH2|r1 IH1|r1 IH1|r1 IH1|r1 IH1|g r1 IH1|g];
    intros A s e k a; simpl.
  - destruct s as [|c' s']; [done|]. destruct (c =? c')%N; [|done].
    intros Hk. exists s', e. split; [by apply suffix_cons_r|done].
  - destruct s as [|c' s']; [done|]. destruct (p c'); [|done].
    intros Hk. exists s', e. split; [by apply suffix_cons_r|done].
  - intros Hr. apply IH1 in Hr. eapply lands_trans; [exact Hr|].
    intros s' e' _ Hr2. by apply IH2 in Hr2.
  - destruct (run r1 s e k) as [a'|] eqn:Hr1.
    + intros [= ->]. by apply IH1 in Hr1.
    + apply IH2.
  - apply star_loop_lands. intros s0 e0 k0 a0. apply IH1.
  - intros Hr. apply IH1 in Hr. eapply lands_trans; [exact Hr|].
    intros s' e' _. apply star_loop_lands. intros s0 e0 k0 a0. apply IH1.
  - destruct (run r1 s e k) as [a'|] eqn:Hr1.
    + intros [= ->]. by apply IH1 in Hr1.
    + intros Hk. by exists s, e.
  - destruct (run r1 s e _) as [e'|]; [|done].
    intros Hk. by exists s, e'.
  - intros Hr. apply IH1 in Hr. destruct Hr as (s' & e' & Hs' & Hk).
    by eexists s', _.
  - destruct (e g) as [m|]; [|done].
    destruct (strip_prefix m s) as [s'|] eqn:Hm; [|done].
    intros Hk. exists s', e. split; [by eapply strip_prefix_suffix|done].
Qed.

Lemma lands_further_trans_l {A} (k k' : str → captures → option A) s a :
  lands_further k' s a →
  (∀ s' e', k' s' e' = Some a → lands k s' a) →
  lands_further k s a.
Proof.
  intros (s1 & e1 & Hs1 & Hlt & Hk') Hstep.
  destruct (Hstep s1 e1 Hk') as (s2 & e2 & Hs2 & Hk).
  exists s2, e2. split_and!; [by etrans| |done].
  apply suffix_length in Hs2. lia.
Qed.

Lemma lands_further_trans_r {A} (k k' : str → captures → option A) s a :
  lands k' s a →
  (∀ s' e', k' s' e' = Some a → lands_further k s' a) →
  lands_further k s a.
Proof.
  intros (s1 & e1 & Hs1 & Hk') Hstep.
  destruct (Hstep s1 e1 Hk') as (s2 & e2 & Hs2 & Hlt & Hk).
  exists s2, e2. split_and!; [by etrans| |done].
  apply suffix_length in Hs1. lia.
Qed.

Lemma run_consumes r : ∀ A s e (k : str → captures → option A) a,
  consumes r = true → run r s e k = Some a → lands_further k s a.
Proof.
  induction r as [c|p|r1 IH1 r2 IH2|r1 IH1 r2 IH2|r1 IH1|r1 IH1|r1 IH1|r1 IH1|g r1 IH1|g];
    intros A s e k a; simpl; try done.
  - intros _. destruct s as [|c' s']; [done|]. destruct (c =? c')%N; [|done].
    intros Hk. exists s', e. split_and!; [by apply suffix_cons_r|simpl; lia|done].
  - intros _. destruct s as [|c' s']; [done|]. destruct (p c'); [|done].
    intros Hk. exists s', e. split_and!; [by apply suffix_cons_r|simpl; lia|done].
  - intros [Hc|Hc]%orb_prop Hr.
    + apply (IH1 _ _ _ _ _ Hc) in Hr. eapply lands_further_trans_l; [exact Hr|].
      intros s' e'. apply run_lands.
    + apply run_lands in Hr. eapply lands_further_trans_r; [exact Hr|].
      intros s' e'. by apply IH2.
  - intros [Hc1 Hc2]%andb_prop.
    destruct (run r1 s e k) as [a'|] eqn:Hr1.
    + intros [= ->]. by apply IH1 in Hr1.
    + by apply IH2.
  - intros Hc Hr. apply (IH1 _ _ _ _ _ Hc) in Hr.
    eapply lands_further_trans_l; [exact Hr|].
    intros s' e'. apply star_loop_lands. intros s0 e0 k0 a0. apply run_lands.
  - intros Hc Hr. apply (IH1 _ _ _ _ _ Hc) in Hr.
    destruct Hr as (s' & e' & Hs' & Hlt & Hk). by eexists s', _.
Qed.

(** ** The Lexer *)

Section LexerProperties.
Context `{Unicode}.

Lemma match_at_split (r : regex) (s : str) (m : Match) (rest : str) :
  consumes r = true → match_at r s = Some (m, rest) →
  s = group0 m ++ rest ∧ group0 m ≠ [].
Proof.
  unfold match_at. intros Hc Hr.
  apply (run_consumes _ _ _ _ _ _ Hc) in Hr.
  destruct Hr as (s' & e' & [p ->] & Hlt & [= <- <-]). simpl.
  rewrite length_app in *.
  replace (length p + length s' - length s') with (length p) by lia.
  rewrite take_app_length. split; [done|].
  intros ->. simpl in Hlt. lia.
Qed.

Lemma consumes_tokenizer_re : consumes tokenizer_re = true.
Proof. reflexivity. Qed.

(** The last alternative, [\S], takes whatever the others left. *)
Lemma match_at_None (c : codepoint) (s : str) :
  match_at tokenizer_re (c :: s) = None → isspace c = true.
Proof.
  unfold match_at, tokenizer_re.
  repeat (rewrite (ltac:(reflexivity) :
      ∀ r1 r2 s e k, @run (Match * str) (Alt r1 r2) s e k
        = match run r1 s e k with Some a => Some a | None => run r2 s e k end);
    destruct (run _ _ _ _); [done|]).
  simpl. by destruct (isspace c).
Qed.

Lemma scan_covers (fuel : nat) (s : str) :
  length s ≤ fuel →
  concat (scanned_text <$> scan fuel s) = s ∧ Forall scanned_ok (scan fuel s).
Proof.
  revert s. induction fuel as [|fuel IH]; intros [|c s] Hlen;
    simpl in Hlen; try lia; try done.
  cbn [scan].
  destruct (match_at tokenizer_re (c :: s)) as [[m rest]|] eqn:Hm.
  - destruct (match_at_split _ _ _ _ consumes_tokenizer_re Hm) as [Hs Hne].
    assert (length rest ≤ fuel) as Hrest.
    { apply (f_equal length) in Hs. rewrite length_app in Hs. simpl in Hs.
      destruct (group0 m); [done|]. simpl in Hs. lia. }
    destruct (IH rest Hrest) as [IH1 IH2].
    split.
    + rewrite fmap_cons. simpl. by rewrite IH1.
    + by constructor.
  - apply match_at_None in Hm.
    destruct (IH s ltac:(lia)) as [IH1 IH2].
    split.
    + rewrite fmap_cons. simpl. by rewrite IH1.
    + by constructor.
Qed.
End LexerProperties.

(** The numeric-expression alternative on its own takes a date or a time
    as a whole, and so does the word-like alternative, which comes first
    in [tokenizer_re]. *)
Lemma numeric_takes_date_and_time :
  group0 ∘ fst <$> @match_at (@numeric latin1) (u "2024-01-15 kl.") = Some (u "2024-01-15")
  ∧ group0 ∘ fst <$> @match_at (@numeric latin1) (u "10:30.") = Some (u "10:30")
  ∧ group0 ∘ fst <$> @match_at (@word_like latin1) (u "2024-01-15 kl.") = Some (u "2024-01-15")
  ∧ group0 ∘ fst <$> @match_at (@word_like latin1) (u "10:30.") = Some (u "10:30").
Proof. vm_compute. done. Qed.

(** C9. Tokenizing "Mötet är 2024-01-15 kl. 10:30." yields "2024-01-15"
    as one token and "10:30" as one token; "kl", the period after it and
    the final period are tokens of their own. *)
Theorem tokenize_date_and_time :
  @tokenize latin1 (u "Mötet är 2024-01-15 kl. 10:30.")
  = [Some (u "Mötet"); Some (u "är"); Some (u "2024-01-15"); Some (u "kl");
     Some (u "."); Some (u "10:30"); Some (u ".")].
Proof. vm_compute. reflexivity. Qed.

(** ** The Grouper *)

Lemma group_from_nonempty (tokens : list item) (sentence : list str) :
  Forall (λ s, s ≠ []) (group_from sentence tokens).
Proof.
  revert sentence. induction tokens as [|[token|] tokens IH]; intros sentence; simpl.
  - destruct sentence; by repeat constructor.
  - apply IH.
  - destruct sentence; simpl; [apply IH|]. constructor; [done|apply IH].
Qed.

(** C7. Every sentence the Grouper emits is non-empty.  A marker met with
    an empty accumulator emits nothing, a marker met with a non-empty
    accumulator emits exactly the accumulated tokens and empties the
    accumulator, a token is appended to the accumulator, and at the end
    of the stream the accumulator is emitted exactly when it is
    non-empty. *)
Theorem group_sentences_nonempty (tokens : list item) :
  Forall (λ s, s ≠ []) (group_sentences tokens)
  ∧ (∀ rest, group_from [] (None :: rest) = group_from [] rest)
  ∧ (∀ t sentence rest,
       group_from (t :: sentence) (None :: rest)
       = (t :: sentence) :: group_from [] rest)
  ∧ (∀ sentence token rest,
       group_from sentence (Some token :: rest)
       = group_from (sentence ++ [token]) rest)
  ∧ group_from [] [] = []
  ∧ (∀ t sentence, group_from (t :: sentence) [] = [t :: sentence]).
Proof.
  split_and!; try done. apply group_from_nonempty.
Qed.

(** ** [PeekableIterator] *)

Lemma fill_spec (k : nat) (self : PeekableIterator) :
  ∃ self',
    fill k self
    = (self', if decide (k ≤ length (_iterable self))
              then Ok () else Raise StopIteration)
    ∧ remaining self' = remaining self
    ∧ (k ≤ length (_iterable self) → length (_cache self') = length (_cache self) + k).
Proof.
  revert self. induction k as [|k IH]; intros [iterable cache]; simpl.
  - eexists. split_and!; [done|done|simpl; lia].
  - destruct iterable as [|x rest]; simpl.
    + eexists. split_and!; [done|done|lia].
    + destruct (IH {| _iterable := rest; _cache := cache ++ [x] |})
        as (self' & -> & Hrem & Hlen). simpl in *.
      exists self'. split_and!.
      * by repeat case_decide; try lia.
      * rewrite Hrem. unfold remaining. simpl. by rewrite <- app_assoc.
      * intros ?. rewrite Hlen by lia. rewrite length_app. simpl. lia.
Qed.

Lemma _fill_cache_spec (n : option nat) (self : PeekableIterator) :
  ∃ self',
    _fill_cache n self
    = (self', if decide (default 1 n ≤ length (remaining self))
              then Ok () else Raise StopIteration)
    ∧ remaining self' = remaining self
    ∧ (default 1 n ≤ length (remaining self) → default 1 n ≤ length (_cache self')).
Proof.
  unfold _fill_cache.
  destruct (fill_spec (default 1 n - length (_cache self)) self)
    as (self' & -> & Hrem & Hlen).
  exists self'. unfold remaining in *. rewrite length_app.
  split_and!; [|done|].
  - by repeat case_decide; try lia.
  - intros ?. rewrite Hlen by lia. lia.
Qed.

Lemma peek_spec (n : nat) (self : PeekableIterator) :
  ∃ self',
    peek n self
    = (self', if decide (n ≤ length (remaining self))
              then Ok (take n (remaining self)) else Raise StopIteration)
    ∧ remaining self' = remaining self.
Proof.
  unfold peek.
  destruct (_fill_cache_spec (Some n) self) as (self' & -> & Hrem & Hlen).
  simpl in *. exists self'. split; [|done].
  case_decide as Hn; [|done].
  specialize (Hlen Hn). rewrite decide_True by done.
  rewrite <- Hrem. unfold remaining. by rewrite take_app_le.
Qed.

Lemma peek1_spec (self : PeekableIterator) :
  ∃ self',
    peek1 self
    = (self', match remaining self with
              | value :: _ => Ok value
              | [] => Raise StopIteration
              end)
    ∧ remaining self' = remaining self.
Proof.
  unfold peek1.
  destruct (_fill_cache_spec None self) as (self' & -> & Hrem & Hlen).
  simpl in *. exists self'. split; [|done].
  rewrite <- Hrem in *. unfold remaining in *.
  case_decide as Hn.
  - specialize (Hlen Hn). destruct (_cache self'); [simpl in Hlen; lia|done].
  - destruct (_cache self'); [|simpl in Hn; lia].
    destruct (_iterable self'); [done|simpl in Hn; lia].
Qed.

Lemma next_spec (self : PeekableIterator) :
  ∃ self',
    next self
    = (self', match remaining self with
              | value :: _ => Ok value
              | [] => Raise StopIteration
              end)
    ∧ remaining self' = tail (remaining self).
Proof.
  unfold next.
  destruct (_fill_cache_spec None self) as (self' & -> & Hrem & Hlen).
  simpl in *. rewrite <- Hrem in *. unfold remaining in *.
  case_decide as Hn.
  - specialize (Hlen Hn).
    destruct (_cache self') as [|value cache]; [simpl in Hlen; lia|].
    by eexists.
  - exists self'. destruct (_cache self'); [|simpl in Hn; lia].
    destruct (_iterable self'); [done|simpl in Hn; lia].
Qed.

Lemma skip_spec (k : nat) (tokens : PeekableIterator) :
  k ≤ length (remaining tokens) →
  ∃ tokens', skip k tokens = (tokens', Ok ())
             ∧ remaining tokens' = drop k (remaining tokens).
Proof.
  revert tokens. induction k as [|k IH]; intros tokens Hk; simpl.
  - by eexists.
  - destruct (next_spec tokens) as (tokens1 & -> & Hrem).
    destruct (remaining tokens) as [|value rest] eqn:Hr; [simpl in Hk; lia|].
    simpl in *. destruct (IH tokens1) as (tokens' & -> & Hrem'); [rewrite Hrem; lia|].
    exists tokens'. by rewrite Hrem', Hrem.
Qed.

(** ** The Resolver *)

Section ResolverProperties.
Context `{Unicode}.
Variable abbrevs : gmap (list item) str.
Variable prefixes : gset (list item).

Lemma first_match_Some (token : item) (n i : nat) (rest c : list item) :
  first_match abbrevs prefixes token n i rest = Some c →
  ∃ j, i ≤ j < i + n ∧ j + 1 ≤ length rest
       ∧ c = token :: take (j + 1) rest
       ∧ is_Some (abbrevs !! c) ∧ c ∈ prefixes
       ∧ ¬ (token = Some (u ".") ∧ last (take (j + 1) rest) = Some None).
Proof.
  revert i. induction n as [|n IH]; intros i; simpl; [done|].
  repeat case_decide; try done.
  - intros [= <-]. exists i. split_and!; try done; try lia.
  - intros (j & ? & ?)%IH. exists j. split; [lia|done].
Qed.

Lemma lookahead_view (token : item) (n i : nat) (tokens : PeekableIterator) :
  ∃ tokens',
    lookahead abbrevs prefixes token n i tokens
    = (tokens', Ok (first_match abbrevs prefixes token n i (remaining tokens)))
    ∧ remaining tokens' = remaining tokens.
Proof.
  revert i tokens. induction n as [|n IH]; intros i tokens; simpl.
  - by eexists.
  - destruct (peek_spec (i + 1) tokens) as (tokens1 & -> & Hrem1).
    case_decide as Hlen; [|by eexists].
    case_decide; [by eexists|].
    case_decide.
    + destruct (peek_spec (i + 1) tokens1) as (tokens2 & -> & Hrem2).
      rewrite Hrem1, decide_True by done.
      destruct (last (take (i + 1) (remaining tokens))) as [next_token|] eqn:Hlast.
      * exists tokens2. split; [|congruence].
        destruct (decide (token = Some (u ".") ∧ next_token = None)) as [[-> ->]|Hno].
        -- by rewrite decide_True.
        -- rewrite decide_False; [done|]. intros [? [= ?]]. by apply Hno.
      * apply last_None in Hlast. apply (f_equal length) in Hlast.
        rewrite length_take in Hlast. simpl in Hlast. lia.
    + destruct (IH (i + 1) tokens1) as (tokens2 & -> & Hrem2).
      exists tokens2. split; congruence.
Qed.

Lemma iteration_view (max_length : nat) (was_abbrev : bool) (token : item)
    (tokens : PeekableIterator) (fuel : nat) :
  let rest := remaining tokens in
  match iteration abbrevs prefixes max_length was_abbrev token tokens with
  | (out, _, Raise e) =>
      resolve abbrevs prefixes max_length (S fuel) was_abbrev (token :: rest)
      = {| yielded := out; ending_of := Uncaught e |}
  | (out, tokens', Ok was_abbrev') =>
      resolve abbrevs prefixes max_length (S fuel) was_abbrev (token :: rest)
      = yield_then out
          (resolve abbrevs prefixes max_length fuel was_abbrev' (remaining tokens'))
  end.
Proof.
  unfold iteration. cbn [resolve]. case_decide.
  - destruct (lookahead_view token max_length 0 tokens) as (tokens1 & -> & Hrem1).
    destruct (first_match _ _ _ _ _ _) as [c|] eqn:Hc; [|by rewrite Hrem1].
    destruct (first_match_Some _ _ _ _ _ Hc) as (j & _ & Hj & -> & [abbrev Habbrev] & _).
    simpl length. rewrite Habbrev.
    destruct (skip_spec (S (length (take (j + 1) (remaining tokens))) - 1) tokens1)
      as (tokens2 & -> & Hrem2).
    { rewrite length_take, Hrem1. lia. }
    by rewrite Hrem2, Hrem1.
  - destruct (peek1_spec tokens) as (tokens1 & -> & Hrem1).
    destruct (remaining tokens) as [|next_token rest] eqn:Hrest; [done|].
    destruct (boundary was_abbrev token next_token) as [[]|]; by rewrite ?Hrem1.
Qed.

Lemma loop_view (max_length fuel : nat) (was_abbrev : bool) (tokens : PeekableIterator) :
  loop abbrevs prefixes max_length fuel was_abbrev tokens
  = resolve abbrevs prefixes max_length fuel was_abbrev (remaining tokens).
Proof.
  revert was_abbrev tokens. induction fuel as [|fuel IH]; intros was_abbrev tokens.
  - done.
  - cbn [loop]. destruct (next_spec tokens) as (tokens1 & -> & Hrem1).
    destruct (remaining tokens) as [|token rest] eqn:Hrest; [done|].
    simpl in Hrem1.
    pose proof (iteration_view max_length was_abbrev token tokens1 fuel) as Hit.
    rewrite Hrem1 in Hit.
    destruct (iteration _ _ _ _ _ _) as [[out tokens2] [was_abbrev'|e]].
    + by rewrite Hit, IH.
    + by rewrite Hit.
Qed.
End ResolverProperties.

Lemma elem_of_abbrev_prefixes (abbrevs : gmap (list item) str) (key c : list item) :
  is_Some (abbrevs !! key) → c ≠ [] → c `prefix_of` key →
  c ∈ abbrev_prefixes abbrevs.
Proof.
  intros Hkey Hc [rest ->]. unfold abbrev_prefixes.
  apply elem_of_union_list. eexists. split.
  - apply list_elem_of_fmap. eexists. split; [done|].
    by apply elem_of_elements, elem_of_dom.
  - apply elem_of_list_to_set. unfold prefixes_of.
    apply list_elem_of_fmap. exists (length c - 1). split.
    + replace (length c - 1 + 1) with (length c)
        by (destruct c; [done|simpl; lia]).
      by rewrite take_app_length.
    + apply elem_of_seq. rewrite length_app.
      destruct c; [done|simpl; lia].
Qed.

Lemma abbrev_prefixes_empty : abbrev_prefixes ∅ = ∅.
Proof. unfold abbrev_prefixes. by rewrite dom_empty_L, elements_empty. Qed.

Lemma max_abbrev_length_ge (abbrevs : gmap (list item) str) (key : list item) :
  is_Some (abbrevs !! key) → length key ≤ max_abbrev_length abbrevs.
Proof.
  intros Hkey. unfold max_abbrev_length.
  assert (key ∈ elements (dom abbrevs)) as Hin
    by by apply elem_of_elements, elem_of_dom.
  destruct (elements (dom abbrevs)) as [|k keys] eqn:Hkeys.
  - by apply elem_of_nil in Hin.
  - apply max_list_elem_of_le, list_elem_of_fmap. by exists key.
Qed.

Section FirstMatch.
Context `{Unicode}.
Variable abbrevs : gmap (list item) str.
Variable prefixes : gset (list item).

(** The inner loop goes on while the candidate is a prefix and not a
    key, and stops with the first candidate that is a key. *)
Lemma first_match_first (token : item) (n i j : nat) (rest : list item) :
  i ≤ j < i + n → j + 1 ≤ length rest →
  (∀ j', i ≤ j' < j →
     token :: take (j' + 1) rest ∈ prefixes
     ∧ abbrevs !! (token :: take (j' + 1) rest) = None) →
  token :: take (j + 1) rest ∈ prefixes →
  is_Some (abbrevs !! (token :: take (j + 1) rest)) →
  ¬ (token = Some (u ".") ∧ last (take (j + 1) rest) = Some None) →
  first_match abbrevs prefixes token n i rest = Some (token :: take (j + 1) rest).
Proof.
  revert i. induction n as [|n IH]; intros i Hj Hlen Hbefore Hpre Hkey Hdot;
    [lia|].
  simpl. rewrite decide_True by lia.
  destruct (decide (i = j)) as [->|Hne].
  - rewrite decide_False by (by intros ?).
    by rewrite decide_True, decide_False.
  - destruct (Hbefore i) as [Hp Hk]; [lia|].
    rewrite decide_False by (by intros ?).
    rewrite decide_False by (rewrite Hk; by intros [??]).
    apply IH; try done; try lia.
    intros j' ?. apply Hbefore. lia.
Qed.

Lemma boundary_breaks_after (was_abbrev : bool) (token next_token : item) :
  token ≠ Some [] → next_token ≠ Some [] →
  boundary was_abbrev token next_token
  = Ok (breaks_after was_abbrev token next_token).
Proof.
  intros Htoken Hnext. unfold boundary, breaks_after.
  destruct token as [token|], next_token as [next_token|]; try done.
  destruct was_abbrev; [done|]. simpl.
  destruct (last token) as [c|] eqn:Hlast.
  - simpl. destruct (bool_decide _); [|done].
    destruct next_token; done.
  - apply last_None in Hlast. by subst.
Qed.
End FirstMatch.

(** The lookahead stops at the first candidate that is a key of the
    table: when the key [token :: ahead] lies at the
    head of the stream and no shorter candidate is a key, the round folds
    it, yields its replacement, sets the flag and takes [ahead] off the
    stream, whatever longer keys the table holds. *)
Theorem first_key_wins `{Unicode} (abbrevs : gmap (list item) str)
    (was_abbrev : bool) (token : item) (ahead : list item)
    (tokens : PeekableIterator) (abbrev : str) :
  abbrevs !! (token :: ahead) = Some abbrev →
  ahead ≠ [] →
  ahead `prefix_of` remaining tokens →
  (∀ j, 0 < j < length ahead → abbrevs !! (token :: take j ahead) = None) →
  ¬ (token = Some (u ".") ∧ last ahead = Some None) →
  ∃ tokens',
    iteration abbrevs (abbrev_prefixes abbrevs) (max_abbrev_length abbrevs)
      was_abbrev token tokens
    = ([Some abbrev], tokens', Ok true)
    ∧ remaining tokens' = drop (length ahead) (remaining tokens).
Proof.
  intros Hkey Hne [rest Hrest] Hshorter Hdot.
  assert (is_Some (abbrevs !! (token :: ahead))) as Hsome by done.
  assert (0 < length ahead) as Hlen by (destruct ahead; [done|simpl; lia]).
  assert (∀ j, j ≤ length ahead → take j (remaining tokens) = take j ahead) as Htake.
  { intros j Hj. rewrite Hrest. by apply take_app_le. }
  unfold iteration. rewrite decide_True; last first.
  { eapply elem_of_abbrev_prefixes; [done|done|]. by exists ahead. }
  destruct (lookahead_view abbrevs (abbrev_prefixes abbrevs) token
              (max_abbrev_length abbrevs) 0 tokens) as (tokens1 & -> & Hrem1).
  pose proof (max_abbrev_length_ge _ _ Hsome) as Hmax. simpl in Hmax.
  rewrite (first_match_first _ _ token _ 0 (length ahead - 1)).
  - replace (length ahead - 1 + 1) with (length ahead) by lia.
    rewrite Htake, firstn_all by done.
    destruct (skip_spec (length (token :: ahead) - 1) tokens1)
      as (tokens2 & -> & Hrem2).
    { rewrite Hrem1, Hrest, length_app. simpl. lia. }
    rewrite Hkey. exists tokens2. split; [done|].
    rewrite Hrem2, Hrem1. simpl. by rewrite Nat.sub_0_r.
  - lia.
  - rewrite Hrest, length_app. lia.
  - intros j' Hj'. rewrite Htake by lia. split.
    + eapply elem_of_abbrev_prefixes; [done|done|].
      apply prefix_cons, prefix_take.
    + apply Hshorter. lia.
  - replace (length ahead - 1 + 1) with (length ahead) by lia.
    rewrite Htake, firstn_all by done.
    by eapply elem_of_abbrev_prefixes.
  - replace (length ahead - 1 + 1) with (length ahead) by lia.
    by rewrite Htake, firstn_all.
  - replace (length ahead - 1 + 1) with (length ahead) by lia.
    by rewrite Htake, firstn_all.
Qed.

Lemma first_key_wins_witness :
  ∃ tokens',
    @iteration latin1 ab_table (abbrev_prefixes ab_table) (max_abbrev_length ab_table)
      false (Some (u "a"))
      {| _iterable := [Some (u "b"); Some (u "c")]; _cache := [] |}
    = ([Some (u "AB")], tokens', Ok true)
    ∧ remaining tokens' = [Some (u "c")].
Proof.
  apply (@first_key_wins latin1 ab_table false (Some (u "a")) [Some (u "b")]
           {| _iterable := [Some (u "b"); Some (u "c")]; _cache := [] |} (u "AB")).
  - vm_compute. reflexivity.
  - discriminate.
  - exists [Some (u "c")]. reflexivity.
  - simpl. intros j Hj. exfalso. lia.
  - intros [Hdot _]. vm_compute in Hdot. discriminate.
Defined.

(** The table holds the keys ("a","b") and ("a","b","c"), both lie at the
    head of the stream a b c, and the replacement of the shorter one is
    what the Resolver yields: the longest matching key does not win. *)
Lemma longest_key_loses :
  ab_table !! [Some (u "a"); Some (u "b")] = Some (u "AB")
  ∧ ab_table !! [Some (u "a"); Some (u "b"); Some (u "c")] = Some (u "ABC")
  ∧ yielded (@join_abbrevs latin1 ab_table [Some (u "a"); Some (u "b"); Some (u "c")])
    = [Some (u "AB"); Some (u "c")]
  ∧ yielded (@join_abbrevs latin1 ab_table [Some (u "a"); Some (u "b"); Some (u "c")])
    ≠ [Some (u "ABC")].
Proof. vm_compute. split_and!; done. Qed.

(** C2. The table holds the keys ("m","fl") and ("m","fl","."), as
    [ABBREVS] does, and both lie at the head of the stream m, fl, "." of
    the text "m fl.".  The lookahead stops at ("m","fl"), the first
    candidate that is a key: the Resolver yields its replacement "m_fl"
    and then the period, and not "m_fl.", the replacement of the longest
    matching key. *)
Theorem longest_abbreviation_unreachable :
  m_fl_table !! [Some (u "m"); Some (u "fl")] = Some (u "m_fl")
  ∧ m_fl_table !! [Some (u "m"); Some (u "fl"); Some (u ".")] = Some (u "m_fl.")
  ∧ @tokenize latin1 (u "m fl.") = [Some (u "m"); Some (u "fl"); Some (u ".")]
  ∧ yielded (@marked latin1 m_fl_table (u "m fl."))
    = [Some (u "m_fl"); Some (u ".")]
  ∧ (lookahead m_fl_table (abbrev_prefixes m_fl_table) (Some (u "m"))
       (max_abbrev_length m_fl_table) 0
       {| _iterable := [Some (u "fl"); Some (u ".")]; _cache := [] |}).2
    = Ok (Some [Some (u "m"); Some (u "fl")]).
Proof. vm_compute. split_and!; done. Qed.

(** C10. A candidate that the lookahead tests against the table is the
    token followed by at least one peeked item, so what the lookahead
    finds has length at least 2; and a round yields either its token
    unchanged and nothing else but, at most, one marker behind it, or
    nothing but the replacement of a key of length at least 2 that
    starts with the token and lies at the head of the stream.  A key of
    length 1 is therefore never folded and its replacement is never
    yielded for it. *)
Theorem keys_of_length_one_never_fold `{Unicode} (abbrevs : gmap (list item) str)
    (prefixes : gset (list item)) (max_length : nat) (was_abbrev : bool)
    (token : item) (tokens : PeekableIterator) :
  (∀ n i, ∃ tokens1 found,
     lookahead abbrevs prefixes token n i tokens = (tokens1, Ok found)
     ∧ from_option (λ c, 2 ≤ length c ∧ is_Some (abbrevs !! c)) True found)
  ∧ ∃ out tokens' r,
      iteration abbrevs prefixes max_length was_abbrev token tokens = (out, tokens', r)
      ∧ ((out = [token] ∨ out = [token; None])
         ∨ ∃ ahead abbrev,
             ahead ≠ [] ∧ ahead `prefix_of` remaining tokens
             ∧ abbrevs !! (token :: ahead) = Some abbrev
             ∧ out = [Some abbrev]).
Proof.
  split.
  - intros n i.
    destruct (lookahead_view abbrevs prefixes token n i tokens) as (tokens1 & -> & _).
    eexists _, _. split; [done|].
    destruct (first_match _ _ _ _ _ _) as [c|] eqn:Hc; [|done].
    destruct (first_match_Some _ _ _ _ _ _ _ Hc) as (j & _ & Hj & -> & Hkey & _).
    simpl. rewrite length_take. split; [lia|done].
  - unfold iteration. case_decide.
    + destruct (lookahead_view abbrevs prefixes token max_length 0 tokens)
        as (tokens1 & -> & Hrem1).
      destruct (first_match _ _ _ _ _ _) as [c|] eqn:Hc.
      * destruct (first_match_Some _ _ _ _ _ _ _ Hc)
          as (j & _ & Hj & -> & [abbrev Hkey] & _).
        destruct (skip_spec (length (token :: take (j + 1) (remaining tokens)) - 1) tokens1)
          as (tokens2 & -> & _).
        { simpl. rewrite length_take, Hrem1. lia. }
        rewrite Hkey. eexists _, _, _. split; [done|]. right.
        exists (take (j + 1) (remaining tokens)), abbrev.
        split_and!; [|apply prefix_take|done|done].
        intros Hnil. apply (f_equal length) in Hnil.
        rewrite length_take in Hnil. simpl in Hnil. lia.
      * eexists _, _, _. split; [done|]. left. by left.
    + destruct (peek1_spec tokens) as (tokens1 & -> & _).
      destruct (remaining tokens) as [|next_token rest].
      * eexists _, _, _. split; [done|]. left. by left.
      * destruct (boundary was_abbrev token next_token) as [[]|];
          (eexists _, _, _; split; [done|]; left; by (left + right)).
Qed.

(** With the single key ("x",) in the table, the token "x" goes through
    unchanged, at the end of the stream and before another token. *)
Example single_token_key_example :
  yielded (@join_abbrevs latin1 {[ [Some (u "x")] := u "y" ]} [Some (u "x")])
  = [Some (u "x")]
  ∧ yielded (@join_abbrevs latin1 {[ [Some (u "x")] := u "y" ]}
               [Some (u "x"); Some (u "z")])
    = [Some (u "x"); Some (u "z")].
Proof. vm_compute. done. Qed.




(** The fuel of [loop] is never what ends it: any amount above the
    length of the stream gives the same run. *)
Lemma resolve_fuel `{Unicode} (abbrevs : gmap (list item) str)
    (prefixes : gset (list item)) (max_length fuel fuel' : nat)
    (was_abbrev : bool) (rest : list item) :
  length rest < fuel → length rest < fuel' →
  resolve abbrevs prefixes max_length fuel was_abbrev rest
  = resolve abbrevs prefixes max_length fuel' was_abbrev rest.
Proof.
  revert fuel' was_abbrev rest.
  induction fuel as [|fuel IH]; intros [|fuel'] was_abbrev rest Hf Hf'; try lia.
  destruct rest as [|token rest]; [done|]. simpl in Hf, Hf'. cbn [resolve].
  case_decide.
  - destruct (first_match _ _ _ _ _ _) as [c|].
    + destruct (abbrevs !! c); [|done].
      rewrite (IH fuel'); [done| |]; rewrite length_drop; lia.
    + rewrite (IH fuel'); [done|lia|lia].
  - destruct rest as [|next_token rest']; [done|].
    destruct (boundary _ _ _) as [[]|]; [| |done];
      (rewrite (IH fuel'); [done|simpl in *; lia|simpl in *; lia]).
Qed.

Lemma join_abbrevs_fuel `{Unicode} (abbrevs : gmap (list item) str)
    (tokens : list item) (fuel : nat) :
  length tokens < fuel →
  loop abbrevs (abbrev_prefixes abbrevs) (max_abbrev_length abbrevs) fuel false
    (PeekableIterator_init tokens)
  = join_abbrevs abbrevs tokens.
Proof.
  intros Hfuel. unfold join_abbrevs. rewrite !loop_view.
  apply resolve_fuel; unfold remaining; simpl; lia.
Qed.

Lemma resolve_empty_table `{Unicode} (max_length fuel : nat) (tokens : list item) :
  length tokens < fuel →
  Forall (λ token, token ≠ Some []) tokens →
  resolve ∅ ∅ max_length fuel false tokens
  = {| yielded := passthrough tokens;
       ending_of := match tokens with
                    | [] => Returned
                    | _ => Uncaught StopIteration
                    end |}.
Proof.
  revert tokens. induction fuel as [|fuel IH]; intros tokens Hfuel Hne; [lia|].
  destruct tokens as [|token rest]; [done|].
  apply Forall_cons in Hne as [Htoken Hrest]. simpl in Hfuel.
  cbn [resolve]. rewrite decide_False by set_solver.
  destruct rest as [|next_token rest']; [done|].
  pose proof Hrest as [Hnext _]%Forall_cons.
  rewrite boundary_breaks_after by done.
  rewrite IH by (done || lia). cbn [passthrough].
  by destruct (breaks_after _ _ _).
Qed.

(** C8. With an empty table the Resolver yields the stream as it is,
    item by item and in order, with a marker put in behind each token
    after which the heuristic sees a break, and nothing else (the tokens
    of the stream being non-empty strings, as the Lexer gives them). *)
Theorem empty_table_passthrough `{Unicode} (tokens : list item) :
  Forall (λ token, token ≠ Some []) tokens →
  yielded (join_abbrevs ∅ tokens) = passthrough tokens.
Proof.
  intros Hne. unfold join_abbrevs.
  rewrite loop_view, abbrev_prefixes_empty.
  change (remaining (PeekableIterator_init tokens)) with tokens.
  rewrite resolve_empty_table; [done|lia|done].
Qed.

Lemma empty_table_passthrough_witness :
  yielded (@join_abbrevs latin1 ∅
             [Some (u "Hej"); Some (u "."); None; Some (u "Hej"); Some (u ".")])
  = @passthrough latin1
      [Some (u "Hej"); Some (u "."); None; Some (u "Hej"); Some (u ".")].
Proof.
  apply (@empty_table_passthrough latin1).
  repeat (apply Forall_cons; split; [discriminate|]). apply Forall_nil_2.
Defined.

Example passthrough_example :
  @passthrough latin1 [Some (u "Hej"); Some (u "."); Some (u "Hej"); Some (u ".")]
  = [Some (u "Hej"); Some (u "."); None; Some (u "Hej"); Some (u ".")].
Proof. vm_compute. reflexivity. Qed.

(** The tokens of the Lexer are non-empty strings. *)
Lemma tokenize_nonempty `{Unicode} (data : str) :
  Forall (λ token, token ≠ Some []) (tokenize data).
Proof.
  unfold tokenize, finditer.
  destruct (scan_covers (length data) data ltac:(done)) as [_ Hok].
  induction Hok as [|x trace Hx Hok IH]; [constructor|].
  destruct x as [c|m]; simpl; [done|].
  constructor; [|done].
  unfold token_of. destruct (group_para m); [done|].
  simpl in Hx. by intros [= ?].
Qed.

(** With an empty table, every stream that is not empty ends the
    generator with the [StopIteration] of the peek behind its last
    item. *)
Lemma empty_table_ending `{Unicode} (tokens : list item) :
  tokens ≠ [] →
  Forall (λ token, token ≠ Some []) tokens →
  ending_of (join_abbrevs ∅ tokens) = Uncaught StopIteration.
Proof.
  intros Htokens Hne. unfold join_abbrevs.
  rewrite loop_view, abbrev_prefixes_empty.
  change (remaining (PeekableIterator_init tokens)) with tokens.
  rewrite resolve_empty_table; [|lia|done]. by destruct tokens.
Qed.

(** C5. On the one-token stream "a" with an empty table the Resolver
    yields "a", and the peek of the sentence segmentation behind it
    raises [StopIteration], which leaves the body of the generator: the
    lookahead of the folding catches this exception, the segmentation
    does not. *)
Theorem peek_past_the_end_escapes :
  @join_abbrevs latin1 ∅ [Some (u "a")]
  = {| yielded := [Some (u "a")]; ending_of := Uncaught StopIteration |}
  ∧ (lookahead dr_table (abbrev_prefixes dr_table) (Some (u "Dr")) 2 0
       (PeekableIterator_init [])).2 = Ok None.
Proof. vm_compute. done. Qed.

(** C1. On "Dr. Andersson kom." with the table ("Dr",".") ↦ "Dr." the
    Resolver yields Dr., Andersson, kom and the period, with no marker
    behind the folded "Dr.", and then the peek behind the last period
    raises [StopIteration], which leaves its generator: the Grouper
    receives a [RuntimeError] while the one sentence is still in its
    accumulator, and the pipeline hands out no sentence. *)
Theorem dr_andersson_sentence_is_lost :
  @marked latin1 dr_table (u "Dr. Andersson kom.")
  = {| yielded := [Some (u "Dr."); Some (u "Andersson"); Some (u "kom"); Some (u ".")];
       ending_of := Uncaught StopIteration |}
  ∧ group_sentences (yielded (@marked latin1 dr_table (u "Dr. Andersson kom.")))
    = [[u "Dr."; u "Andersson"; u "kom"; u "."]]
  ∧ @grouped latin1 dr_table (u "Dr. Andersson kom.")
    = {| yielded := []; ending_of := Uncaught RuntimeError |}
  ∧ @sentences latin1 dr_table (u "Dr. Andersson kom.") = [].
Proof. vm_compute. done. Qed.

(** C3. On "Vi se Dr." with the table ("Dr",".") ↦ "Dr." the final
    period is folded into the abbreviation: the last sentence ends with
    "se", "Dr." and not with "se", "Dr", ".". *)
Theorem final_period_is_folded :
  @marked latin1 dr_table (u "Vi se Dr.")
  = {| yielded := [Some (u "Vi"); Some (u "se"); Some (u "Dr.")];
       ending_of := Returned |}
  ∧ @sentences latin1 dr_table (u "Vi se Dr.") = [[u "Vi"; u "se"; u "Dr."]].
Proof. vm_compute. done. Qed.

(** * Further properties of the code *)

(** ** [group_sentences] *)

Lemma group_from_concat (tokens : list item) (sentence : list str) :
  concat (group_from sentence tokens) = sentence ++ omap id tokens.
Proof.
  revert sentence. induction tokens as [|[token|] tokens IH]; intros sentence; simpl.
  - destruct sentence; simpl; by rewrite ?app_nil_r.
  - rewrite IH. by rewrite <- app_assoc.
  - rewrite concat_app, IH. destruct sentence; simpl; by rewrite ?app_nil_r.
Qed.

(** X1. The sentences of the Grouper, put end to end, are the tokens of
    the stream in their order: no token is dropped, repeated or moved,
    and only the markers are gone. *)
Theorem group_sentences_keeps_tokens (tokens : list item) :
  concat (group_sentences tokens) = omap id tokens.
Proof. apply group_from_concat. Qed.

Lemma group_from_marker (before after : list item) (sentence : list str) :
  group_from sentence (before ++ None :: after)
  = group_from sentence before ++ group_from [] after.
Proof.
  revert sentence. induction before as [|[token|] before IH]; intros sentence; simpl.
  - done.
  - apply IH.
  - by rewrite IH, app_assoc.
Qed.

(** X2. A marker cuts the work of the Grouper in two: the sentences of a
    stream are those of the part before the marker followed by those of
    the part behind it, whichever of the two kinds of marker it is and
    whatever surrounds it. *)
Theorem group_sentences_splits_at_marker (before after : list item) :
  group_sentences (before ++ None :: after)
  = group_sentences before ++ group_sentences after.
Proof. apply group_from_marker. Qed.

(** ** The main program: whitespace, and the empty table *)

Lemma lstrip_whitespace `{Unicode} (s : str) :
  Forall (λ c, isspace c = true) s → lstrip s = [].
Proof.
  induction 1 as [|c s Hc Hs IH]; simpl; [done|]. by rewrite Hc.
Qed.

(** X3. A document of whitespace only gives no token, no sentence and no
    exception, whatever the table: [strip] leaves the empty text, on
    which the Resolver returns at once. *)
Theorem blank_document_no_sentence `{Unicode} (abbrevs : gmap (list item) str)
    (data : str) :
  Forall (λ c, isspace c = true) data →
  marked abbrevs data = {| yielded := []; ending_of := Returned |}
  ∧ sentences abbrevs data = [].
Proof.
  intros Hdata. unfold sentences, grouped, group_sentences_of, marked, strip.
  rewrite (lstrip_whitespace data) by done. done.
Qed.

Lemma blank_document_no_sentence_witness :
  @marked latin1 dr_table (u " 	
 ") = {| yielded := []; ending_of := Returned |}
  ∧ @sentences latin1 dr_table (u " 	
 ") = [].
Proof.
  apply (@blank_document_no_sentence latin1 dr_table).
  repeat (apply Forall_cons; split; [vm_compute; reflexivity|]). apply Forall_nil_2.
Defined.

Lemma passthrough_tokens `{Unicode} (tokens : list item) :
  omap id (passthrough tokens) = omap id tokens.
Proof.
  assert (∀ (x : item) l, omap id (x :: l) = from_option (λ y, [y]) [] x ++ omap id l)
    as Hcons by (by intros [y|] l).
  induction tokens as [|token [|next_token rest] IH]; [done|done|].
  change (passthrough (token :: next_token :: rest))
    with (if breaks_after false token next_token
          then token :: None :: passthrough (next_token :: rest)
          else token :: passthrough (next_token :: rest)).
  destruct (breaks_after _ _ _); rewrite (Hcons token); [rewrite (Hcons None)|];
    rewrite IH; by rewrite (Hcons token (next_token :: rest)).
Qed.

Lemma group_run_returned (tokens : list item) (sentence : list str) :
  group_run sentence tokens Returned
  = {| yielded := group_from sentence tokens; ending_of := Returned |}.
Proof.
  revert sentence. induction tokens as [|[token|] tokens IH]; intros sentence; simpl.
  - done.
  - apply IH.
  - by rewrite IH.
Qed.

Lemma group_run_uncaught (tokens : list item) (sentence : list str) (e : exn) :
  ∃ lost,
    group_from sentence tokens
    = yielded (group_run sentence tokens (Uncaught e))
      ++ match lost with [] => [] | _ => [lost] end
    ∧ ending_of (group_run sentence tokens (Uncaught e)) = Uncaught e.
Proof.
  revert sentence. induction tokens as [|[token|] tokens IH]; intros sentence; simpl.
  - by exists sentence.
  - apply IH.
  - destruct (IH []) as (lost & -> & ->). exists lost. by rewrite app_assoc.
Qed.

(** X4. With an empty table the pipeline hands out the sentences that a
    marker closes and loses the one that is open when the Resolver
    ends: the sentences handed out, put end to end, and then the lost
    one are the tokens of the Lexer in their order, and for every
    document with an item in it the pipeline ends with the
    [RuntimeError] received from the Resolver. *)
Theorem empty_table_loses_the_open_sentence `{Unicode} (data : str) :
  ∃ lost,
    concat (sentences ∅ data) ++ lost = omap id (tokenize (strip data))
    ∧ group_sentences (yielded (marked ∅ data))
      = sentences ∅ data ++ match lost with [] => [] | _ => [lost] end
    ∧ ending_of (grouped ∅ data)
      = match tokenize (strip data) with
        | [] => Returned
        | _ => Uncaught RuntimeError
        end.
Proof.
  unfold sentences, grouped, group_sentences_of, marked, join_abbrevs.
  rewrite loop_view, abbrev_prefixes_empty.
  change (remaining (PeekableIterator_init ?l)) with l.
  rewrite resolve_empty_table; [|lia|apply tokenize_nonempty].
  cbn [yielded ending_of].
  destruct (tokenize (strip data)) as [|token tokens] eqn:Htokens.
  { by exists []. }
  rewrite <- Htokens. clear Htokens token tokens. cbn [received].
  destruct (group_run_uncaught (passthrough (tokenize (strip data))) [] RuntimeError)
    as (lost & Hgroup & Hend).
  exists lost. split_and!; [|done|done].
  pose proof (group_from_concat (passthrough (tokenize (strip data))) []) as Hcat.
  rewrite app_nil_l, passthrough_tokens in Hcat.
  rewrite <- Hcat, Hgroup, concat_app.
  by destruct lost; simpl; rewrite ?app_nil_r.
Qed.

(** ** The prefix set *)

(** X5. The prefix set holds exactly the non-empty prefixes of the keys
    of the table: every non-empty prefix of every key is in it, the keys
    themselves included, and nothing else is. *)
Theorem abbrev_prefixes_are_the_prefixes (abbrevs : gmap (list item) str)
    (c : list item) :
  c ∈ abbrev_prefixes abbrevs
  ↔ c ≠ [] ∧ ∃ key, is_Some (abbrevs !! key) ∧ c `prefix_of` key.
Proof.
  split.
  - unfold abbrev_prefixes. intros (X & HX & Hc)%elem_of_union_list.
    apply list_elem_of_fmap in HX as (key & -> & Hkey).
    apply elem_of_elements, elem_of_dom in Hkey.
    apply elem_of_list_to_set, list_elem_of_fmap in Hc as (i & -> & Hi).
    apply elem_of_seq in Hi. split.
    + intros Hnil. apply (f_equal length) in Hnil.
      rewrite length_take in Hnil. simpl in Hnil. lia.
    + exists key. split; [done|apply prefix_take].
  - intros [Hne (key & Hkey & Hpre)]. by eapply elem_of_abbrev_prefixes.
Qed.

(** ** How [join_abbrevs] ends *)

Lemma boundary_raises `{Unicode} (was_abbrev : bool) (token next_token : item) (e : exn) :
  boundary was_abbrev token next_token = Raise e → e = IndexError.
Proof.
  unfold boundary. destruct token as [token|], next_token as [next_token|]; try done.
  destruct was_abbrev; [done|]. destruct (last token); [|by intros [= <-]].
  destruct (bool_decide _); [|done]. destruct next_token; [by intros [= <-]|done].
Qed.

Lemma resolve_ending `{Unicode} (abbrevs : gmap (list item) str)
    (prefixes : gset (list item)) (max_length fuel : nat) (was_abbrev : bool)
    (rest : list item) :
  let e := ending_of (resolve abbrevs prefixes max_length fuel was_abbrev rest) in
  e ≠ Uncaught KeyError
  ∧ (Forall (λ token, token ≠ Some []) rest →
     e = Returned ∨ e = Uncaught StopIteration).
Proof.
  revert was_abbrev rest. induction fuel as [|fuel IH]; intros was_abbrev rest.
  { simpl. split; [done|by left]. }
  destruct rest as [|token rest]. { simpl. split; [done|by left]. }
  cbn [resolve]. case_decide.
  - destruct (first_match _ _ _ _ _ _) as [c|] eqn:Hc.
    + destruct (first_match_Some _ _ _ _ _ _ _ Hc) as (j & _ & _ & _ & [abbrev ->] & _).
      simpl. destruct (IH true (drop (length c - 1) rest)) as [IH1 IH2].
      split; [done|]. intros [_ Hrest]%Forall_cons. apply IH2.
      by apply Forall_drop.
    + simpl. destruct (IH was_abbrev rest) as [IH1 IH2].
      split; [done|]. intros [_ Hrest]%Forall_cons. by apply IH2.
  - destruct rest as [|next_token rest']. { simpl. split; [done|by right]. }
    destruct (IH false (next_token :: rest')) as [IH1 IH2].
    destruct (boundary was_abbrev token next_token) as [[]|e] eqn:Hb; simpl.
    + split; [done|]. intros [_ Hrest]%Forall_cons. by apply IH2.
    + split; [done|]. intros [_ Hrest]%Forall_cons. by apply IH2.
    + split.
      * apply boundary_raises in Hb as ->. done.
      * intros [Htoken [Hnext _]%Forall_cons]%Forall_cons.
        by rewrite boundary_breaks_after in Hb.
Qed.

(** X6. On a stream whose tokens are non-empty strings the generator of
    [join_abbrevs] ends in one of two ways only: its body returns, or
    the [StopIteration] of a peek leaves it.  The lookup
    [abbrevs[longest_candidate]] never raises [KeyError] and the
    indexing of the segmentation never raises [IndexError]. *)
Theorem join_abbrevs_endings `{Unicode} (abbrevs : gmap (list item) str)
    (tokens : list item) :
  Forall (λ token, token ≠ Some []) tokens →
  ending_of (join_abbrevs abbrevs tokens) = Returned
  ∨ ending_of (join_abbrevs abbrevs tokens) = Uncaught StopIteration.
Proof.
  intros Hne. unfold join_abbrevs. rewrite loop_view.
  by apply resolve_ending.
Qed.

Lemma join_abbrevs_endings_witness :
  ending_of (@join_abbrevs latin1 dr_table [Some (u "se"); Some (u "Dr"); Some (u ".")])
  = Returned
  ∨ ending_of (@join_abbrevs latin1 dr_table [Some (u "se"); Some (u "Dr"); Some (u ".")])
    = Uncaught StopIteration.
Proof.
  apply (@join_abbrevs_endings latin1 dr_table).
  repeat (apply Forall_cons; split; [discriminate|]). apply Forall_nil_2.
Defined.

(** X7. On the tokens of the Lexer, for every table and every text, the
    Resolver raises neither [IndexError] nor [KeyError]: the Lexer gives
    no empty token, so [token[-1]] and [next_token[0]] are always
    there. *)
Theorem marked_endings `{Unicode} (abbrevs : gmap (list item) str) (data : str) :
  ending_of (marked abbrevs data) = Returned
  ∨ ending_of (marked abbrevs data) = Uncaught StopIteration.
Proof.
  unfold marked, join_abbrevs. rewrite loop_view.
  apply resolve_ending, tokenize_nonempty.
Qed.

(** X8. An empty string as a token that starts no abbreviation, with a
    token behind it, is yielded and then stops the Resolver with the
    [IndexError] of [token[-1]]: the items behind it are never
    yielded. *)
Theorem empty_token_raises `{Unicode} (abbrevs : gmap (list item) str)
    (next_token : str) (rest : list item) :
  [Some []] ∉ abbrev_prefixes abbrevs →
  join_abbrevs abbrevs (Some [] :: Some next_token :: rest)
  = {| yielded := [Some []]; ending_of := Uncaught IndexError |}.
Proof.
  intros Hpre. unfold join_abbrevs. rewrite loop_view.
  change (remaining (PeekableIterator_init ?l)) with l.
  cbn [resolve length]. by rewrite decide_False.
Qed.

Lemma empty_token_raises_witness :
  @join_abbrevs latin1 dr_table [Some []; Some (u "Hej"); Some (u "du")]
  = {| yielded := [Some []]; ending_of := Uncaught IndexError |}.
Proof.
  apply (@empty_token_raises latin1 dr_table (u "Hej") [Some (u "du")]).
  apply (bool_decide_unpack _). vm_compute. exact I.
Defined.

Lemma resolve_off_prefixes `{Unicode} (abbrevs : gmap (list item) str)
    (prefixes : gset (list item)) (max_length max_length' fuel : nat)
    (was_abbrev : bool) (rest : list item) :
  Forall (λ token, [token] ∉ prefixes) rest →
  resolve abbrevs prefixes max_length fuel was_abbrev rest
  = resolve ∅ ∅ max_length' fuel was_abbrev rest.
Proof.
  revert was_abbrev rest. induction fuel as [|fuel IH]; intros was_abbrev rest Hrest;
    [done|].
  destruct rest as [|token rest]; [done|].
  apply Forall_cons in Hrest as [Htoken Hrest].
  cbn [resolve]. rewrite !decide_False by (done || set_solver).
  destruct rest as [|next_token rest']; [done|].
  destruct (boundary _ _ _) as [[]|]; [| |done]; by rewrite IH.
Qed.

(** X9. A table none of whose keys starts with an item of the stream
    changes nothing: the Resolver yields what it yields with the empty
    table and ends in the same way. *)
Theorem table_off_the_stream `{Unicode} (abbrevs : gmap (list item) str)
    (tokens : list item) :
  Forall (λ token, [token] ∉ abbrev_prefixes abbrevs) tokens →
  join_abbrevs abbrevs tokens = join_abbrevs ∅ tokens.
Proof.
  intros Hoff. unfold join_abbrevs. rewrite !loop_view.
  change (remaining (PeekableIterator_init ?l)) with l.
  rewrite abbrev_prefixes_empty. by apply resolve_off_prefixes.
Qed.

Lemma table_off_the_stream_witness :
  @join_abbrevs latin1 dr_table [Some (u "Hej"); Some (u "."); Some (u "Hej")]
  = @join_abbrevs latin1 ∅ [Some (u "Hej"); Some (u "."); Some (u "Hej")].
Proof.
  apply (@table_off_the_stream latin1 dr_table).
  repeat (apply Forall_cons; split;
          [apply (bool_decide_unpack _); vm_compute; exact I|]).
  apply Forall_nil_2.
Defined.

Lemma resolve_provenance `{Unicode} (abbrevs : gmap (list item) str)
    (prefixes : gset (list item)) (max_length fuel : nat) (was_abbrev : bool)
    (rest : list item) :
  Forall (λ x, x = None ∨ x ∈ rest
               ∨ ∃ key abbrev, abbrevs !! key = Some abbrev ∧ x = Some abbrev)
    (yielded (resolve abbrevs prefixes max_length fuel was_abbrev rest)).
Proof.
  revert was_abbrev rest. induction fuel as [|fuel IH]; intros was_abbrev rest;
    [by constructor|].
  destruct rest as [|token rest]; [by constructor|].
  assert (∀ was_abbrev' rest',
    rest' ⊆ token :: rest →
    Forall (λ x, x = None ∨ x ∈ token :: rest
                 ∨ ∃ key abbrev, abbrevs !! key = Some abbrev ∧ x = Some abbrev)
      (yielded (resolve abbrevs prefixes max_length fuel was_abbrev' rest'))) as IH'.
  { intros was_abbrev' rest' Hsub. eapply Forall_impl; [apply IH|].
    intros x [->|[Hx|Hx]]; [by left| |by right; right].
    right; left. by apply Hsub. }
  assert (rest ⊆ token :: rest) as Hrest by set_solver.
  cbn [resolve]. case_decide.
  - destruct (first_match _ _ _ _ _ _) as [c|] eqn:Hc.
    + destruct (abbrevs !! c) as [abbrev|] eqn:Hkey; [|by constructor].
      simpl. constructor; [right; right; by exists c, abbrev|].
      apply IH'. etrans; [|exact Hrest]. apply subseteq_drop.
    + simpl. constructor; [right; left; set_solver|]. by apply IH'.
  - destruct rest as [|next_token rest'].
    { simpl. constructor; [right; left; set_solver|constructor]. }
    destruct (boundary _ _ _) as [[]|]; simpl.
    + constructor; [right; left; set_solver|].
      constructor; [by left|]. by apply IH'.
    + constructor; [right; left; set_solver|]. by apply IH'.
    + constructor; [right; left; set_solver|constructor].
Qed.

(** X10. The Resolver makes up no token: every item it yields is a
    marker, an item of the stream it was given, or the replacement the
    table holds for one of its keys. *)
Theorem join_abbrevs_provenance `{Unicode} (abbrevs : gmap (list item) str)
    (tokens : list item) :
  Forall (λ x, x = None ∨ x ∈ tokens
               ∨ ∃ key abbrev, abbrevs !! key = Some abbrev ∧ x = Some abbrev)
    (yielded (join_abbrevs abbrevs tokens)).
Proof.
  unfold join_abbrevs. rewrite loop_view. apply resolve_provenance.
Qed.

(** ** The guard of the folding *)

Lemma fold_first_key `{Unicode} (abbrevs : gmap (list item) str)
    (was_abbrev : bool) (token : item) (ahead : list item)
    (tokens : PeekableIterator) (abbrev : str) :
  abbrevs !! (token :: ahead) = Some abbrev →
  ahead ≠ [] →
  ahead `prefix_of` remaining tokens →
  (∀ j, 0 < j < length ahead → abbrevs !! (token :: take j ahead) = None) →
  ¬ (token = Some (u ".") ∧ last ahead = Some None) →
  ∃ tokens',
    iteration abbrevs (abbrev_prefixes abbrevs) (max_abbrev_length abbrevs)
      was_abbrev token tokens
    = ([Some abbrev], tokens', Ok true)
    ∧ remaining tokens' = drop (length ahead) (remaining tokens).
Proof.
  intros Hkey Hne [rest Hrest] Hshorter Hdot.
  assert (is_Some (abbrevs !! (token :: ahead))) as Hsome by done.
  assert (0 < length ahead) as Hlen by (destruct ahead; [done|simpl; lia]).
  assert (∀ j, j ≤ length ahead → take j (remaining tokens) = take j ahead) as Htake.
  { intros j Hj. rewrite Hrest. by apply take_app_le. }
  unfold iteration. rewrite decide_True; last first.
  { eapply elem_of_abbrev_prefixes; [done|done|]. by exists ahead. }
  destruct (lookahead_view abbrevs (abbrev_prefixes abbrevs) token
              (max_abbrev_length abbrevs) 0 tokens) as (tokens1 & -> & Hrem1).
  pose proof (max_abbrev_length_ge _ _ Hsome) as Hmax. simpl in Hmax.
  rewrite (first_match_first _ _ token _ 0 (length ahead - 1)).
  - replace (length ahead - 1 + 1) with (length ahead) by lia.
    rewrite Htake, firstn_all by done.
    destruct (skip_spec (length (token :: ahead) - 1) tokens1)
      as (tokens2 & -> & Hrem2).
    { rewrite Hrem1, Hrest, length_app. simpl. lia. }
    rewrite Hkey. exists tokens2. split; [done|].
    rewrite Hrem2, Hrem1. simpl. by rewrite Nat.sub_0_r.
  - lia.
  - rewrite Hrest, length_app. lia.
  - intros j' Hj'. rewrite Htake by lia. split.
    + eapply elem_of_abbrev_prefixes; [done|done|].
      apply prefix_cons, prefix_take.
    + apply Hshorter. lia.
  - replace (length ahead - 1 + 1) with (length ahead) by lia.
    rewrite Htake, firstn_all by done.
    by eapply elem_of_abbrev_prefixes.
  - replace (length ahead - 1 + 1) with (length ahead) by lia.
    by rewrite Htake, firstn_all.
  - replace (length ahead - 1 + 1) with (length ahead) by lia.
    by rewrite Htake, firstn_all.
Qed.

(** X11. For a table whose keys hold no [None], the guard "exclude the
    final period" of the lookahead never discards a match: the first key
    that lies at the head of the stream is folded also when the token is
    a period and also when the key ends the stream. *)
Theorem guard_never_fires `{Unicode} (abbrevs : gmap (list item) str)
    (was_abbrev : bool) (token : item) (ahead : list item)
    (tokens : PeekableIterator) (abbrev : str) :
  (∀ key, is_Some (abbrevs !! key) → None ∉ key) →
  abbrevs !! (token :: ahead) = Some abbrev →
  ahead ≠ [] →
  ahead `prefix_of` remaining tokens →
  (∀ j, 0 < j < length ahead → abbrevs !! (token :: take j ahead) = None) →
  ∃ tokens',
    iteration abbrevs (abbrev_prefixes abbrevs) (max_abbrev_length abbrevs)
      was_abbrev token tokens
    = ([Some abbrev], tokens', Ok true)
    ∧ remaining tokens' = drop (length ahead) (remaining tokens).
Proof.
  intros Hkeys Hkey Hne Hpre Hshorter.
  apply fold_first_key; try done.
  intros [_ Hlast]. apply (Hkeys (token :: ahead)); [done|].
  apply elem_of_cons. right.
  apply last_Some in Hlast as [ahead' ->]. set_solver.
Qed.

Lemma guard_never_fires_witness :
  ∃ tokens',
    @iteration latin1 dot_table (abbrev_prefixes dot_table)
      (max_abbrev_length dot_table) false (Some (u "."))
      {| _iterable := [Some (u "a")]; _cache := [] |}
    = ([Some (u ".a")], tokens', Ok true)
    ∧ remaining tokens' = [].
Proof.
  apply (@guard_never_fires latin1 dot_table false (Some (u ".")) [Some (u "a")]
           {| _iterable := [Some (u "a")]; _cache := [] |} (u ".a")).
  - intros key [abbrev Hkey].
    unfold dot_table in Hkey. apply lookup_singleton_Some in Hkey as [<- _].
    intros Hin. repeat (apply elem_of_cons in Hin as [Hin|Hin]; [discriminate|]).
    by apply elem_of_nil in Hin.
  - vm_compute. reflexivity.
  - discriminate.
  - exists []. reflexivity.
  - simpl. intros j Hj. exfalso. lia.
Defined.

(** ** [PeekableIterator] *)

(** X12. Peeking takes nothing off the stream.  [peek(n)] gives the next
    [n] items when that many are left and raises [StopIteration] when
    they are not, and either way the items the iterator still has to
    give are the same as before; [peek()] gives exactly what the next
    [next()] gives, or raises [StopIteration] as it does. *)
Theorem peek_keeps_the_stream (n : nat) (self : PeekableIterator) :
  remaining (peek n self).1 = remaining self
  ∧ (peek n self).2
    = (if decide (n ≤ length (remaining self))
       then Ok (take n (remaining self)) else Raise StopIteration)
  ∧ remaining (peek1 self).1 = remaining self
  ∧ (peek1 self).2 = (next self).2
  ∧ (next (peek1 self).1).2 = (next self).2.
Proof.
  destruct (peek_spec n self) as (self1 & -> & Hrem1).
  destruct (peek1_spec self) as (self2 & -> & Hrem2).
  destruct (next_spec self) as (self3 & -> & Hrem3).
  cbn [fst snd].
  destruct (next_spec self2) as (self4 & -> & Hrem4).
  cbn [fst snd]. by rewrite Hrem2.
Qed.

Lemma pops_spec (k : nat) (cache : list item) :
  k ≤ length cache → pops k cache = (drop k cache, Ok (take k cache)).
Proof.
  revert cache. induction k as [|k IH]; intros cache Hk; simpl.
  - by rewrite drop_0.
  - destruct cache as [|value cache]; [simpl in Hk; lia|].
    simpl in *. by rewrite IH by lia.
Qed.

(** X13. [__next__(n)] with a number takes the next [n] items off the
    stream and returns them in order when that many are left; when they
    are not it raises [StopIteration] and loses nothing: the items
    already fetched stay in the cache and the stream is as before. *)
Theorem next_n_takes_or_keeps (n : nat) (self : PeekableIterator) :
  if decide (n ≤ length (remaining self))
  then (next_n n self).2 = Ok (take n (remaining self))
       ∧ remaining (next_n n self).1 = drop n (remaining self)
  else (next_n n self).2 = Raise StopIteration
       ∧ remaining (next_n n self).1 = remaining self.
Proof.
  unfold next_n.
  destruct (_fill_cache_spec (Some n) self) as (self' & -> & Hrem & Hlen).
  simpl in *. case_decide as Hn; [|done].
  specialize (Hlen Hn). rewrite pops_spec by done. simpl.
  rewrite <- Hrem. unfold remaining. simpl.
  by rewrite take_app_le, drop_app_le.
Qed.

Lemma fill_cache_length (k : nat) (self : PeekableIterator) :
  length (_cache (fill k self).1) ≤ length (_cache self) + k.
Proof.
  revert self. induction k as [|k IH]; intros [iterable cache]; simpl; [lia|].
  destruct iterable as [|x rest]; simpl; [lia|].
  etrans; [apply IH|]. simpl. rewrite length_app. simpl. lia.
Qed.

Lemma _fill_cache_length (n : option nat) (self : PeekableIterator) :
  length (_cache (_fill_cache n self).1) ≤ length (_cache self) `max` default 1 n.
Proof.
  unfold _fill_cache. etrans; [apply fill_cache_length|]. lia.
Qed.

Lemma peek_cache_length (n : nat) (self : PeekableIterator) :
  length (_cache (peek n self).1) ≤ length (_cache self) `max` n.
Proof.
  unfold peek. pose proof (_fill_cache_length (Some n) self) as Hlen.
  destruct (_fill_cache (Some n) self) as [self' [[]|e]]; simpl in *; [|done].
  by case_decide.
Qed.

Lemma peek1_cache_length (self : PeekableIterator) :
  length (_cache (peek1 self).1) ≤ length (_cache self) `max` 1.
Proof.
  unfold peek1. pose proof (_fill_cache_length None self) as Hlen.
  destruct (_fill_cache None self) as [self' [[]|e]]; simpl in *; [|done].
  by destruct (_cache self') eqn:Hc; simpl; rewrite ?Hc in *.
Qed.

Lemma next_cache_length (self : PeekableIterator) :
  length (_cache (next self).1) ≤ length (_cache self).
Proof.
  unfold next, _fill_cache. simpl.
  destruct (_cache self) as [|value cache] eqn:Hcache.
  - simpl. destruct self as [[|x rest] c]; simpl in *; subst; simpl; lia.
  - simpl. rewrite Hcache. simpl. lia.
Qed.

Lemma skip_cache_length (k : nat) (tokens : PeekableIterator) :
  length (_cache (skip k tokens).1) ≤ length (_cache tokens).
Proof.
  revert tokens. induction k as [|k IH]; intros tokens; simpl; [done|].
  pose proof (next_cache_length tokens) as Hnext.
  destruct (next tokens) as [tokens1 [value|e]]; simpl in *; [|done].
  etrans; [apply IH|done].
Qed.

Lemma lookahead_cache_length (abbrevs : gmap (list item) str)
    (prefixes : gset (list item)) (token : item) (n i : nat)
    (tokens : PeekableIterator) :
  length (_cache (lookahead abbrevs prefixes token n i tokens).1)
  ≤ length (_cache tokens) `max` (i + n).
Proof.
  revert i tokens. induction n as [|n IH]; intros i tokens; simpl; [lia|].
  pose proof (peek_cache_length (i + 1) tokens) as Hpeek.
  destruct (peek (i + 1) tokens) as [tokens1 [ahead|e]] eqn:Hp; simpl in *.
  - case_decide; [simpl; lia|]. case_decide.
    + pose proof (peek_cache_length (i + 1) tokens1) as Hpeek'.
      destruct (peek (i + 1) tokens1) as [tokens2 [ahead'|e]]; simpl in *.
      * destruct (last ahead'); [case_decide|]; simpl; lia.
      * destruct e; simpl; lia.
    + etrans; [apply IH|]. lia.
  - destruct e; simpl; lia.
Qed.

(** X14. The lookahead is bounded by the longest key.  Taking the next
    token never makes the cache longer, and a round that starts with at
    most [max(max_length, 1)] items in the cache ends with at most that
    many: from the empty cache [join_abbrevs] starts with, the cache
    never holds more than the longest key has items, or one item. *)
Theorem cache_stays_bounded `{Unicode} (abbrevs : gmap (list item) str)
    (prefixes : gset (list item)) (max_length : nat) (was_abbrev : bool)
    (token : item) (tokens : PeekableIterator) :
  length (_cache tokens) ≤ max_length `max` 1 →
  length (_cache (next tokens).1) ≤ length (_cache tokens)
  ∧ length (_cache (iteration abbrevs prefixes max_length was_abbrev token tokens).1.2)
    ≤ max_length `max` 1.
Proof.
  intros Hcache. split; [apply next_cache_length|].
  unfold iteration. case_decide.
  - pose proof (lookahead_cache_length abbrevs prefixes token max_length 0 tokens) as Hl.
    destruct (lookahead abbrevs prefixes token max_length 0 tokens)
      as [tokens1 [[[|x c]|]|e]]; simpl in *; try lia.
    pose proof (skip_cache_length (length c - 0) tokens1) as Hs.
    destruct (skip (length c - 0) tokens1) as [tokens2 [[]|e]]; simpl in *; [|lia].
    destruct (abbrevs !! (x :: c)); simpl; lia.
  - pose proof (peek1_cache_length tokens) as Hp.
    destruct (peek1 tokens) as [tokens1 [next_token|e]]; simpl in *; [|lia].
    destruct (boundary was_abbrev token next_token) as [[]|]; simpl; lia.
Qed.

Lemma cache_stays_bounded_witness :
  length (_cache (next {| _iterable := [Some (u "."); Some (u "x")]; _cache := [] |}).1)
  ≤ length (_cache {| _iterable := [Some (u "."); Some (u "x")]; _cache := [] |})
  ∧ length (_cache (@iteration latin1 dr_table (abbrev_prefixes dr_table) 2 false
                      (Some (u "Dr"))
                      {| _iterable := [Some (u "."); Some (u "x")]; _cache := [] |}).1.2)
    ≤ 2 `max` 1.
Proof.
  apply (@cache_stays_bounded latin1 dr_table (abbrev_prefixes dr_table) 2 false
           (Some (u "Dr")) {| _iterable := [Some (u "."); Some (u "x")]; _cache := [] |}).
  simpl. lia.
Defined.

(** ** The spans of [tokenizer_re] *)

Lemma lands_after_trans {A} (P : codepoint → Prop) (k k' : str → captures → option A)
    (s : str) (a : A) :
  lands_after P k' s a →
  (∀ s' e', k' s' e' = Some a → lands_after P k s' a) →
  lands_after P k s a.
Proof.
  intros (p1 & s1 & e1 & -> & Hp1 & Hk') Hstep.
  destruct (Hstep s1 e1 Hk') as (p2 & s2 & e2 & -> & Hp2 & Hk).
  exists (p1 ++ p2), s2, e2. split_and!; [by rewrite app_assoc|by apply Forall_app|done].
Qed.

Lemma lands_after_here {A} (P : codepoint → Prop) (k : str → captures → option A)
    (s : str) (e : captures) (a : A) :
  k s e = Some a → lands_after P k s a.
Proof. intros Hk. by exists [], s, e. Qed.

Lemma lands_after_impl {A} (P Q : codepoint → Prop) (k : str → captures → option A)
    (s : str) (a : A) :
  (∀ c, P c → Q c) → lands_after P k s a → lands_after Q k s a.
Proof.
  intros HPQ (p & s' & e' & -> & Hp & Hk). exists p, s', e'.
  split_and!; [done| |done]. by eapply Forall_impl.
Qed.

Lemma star_loop_span {A} (P : codepoint → Prop)
    (body : str → captures → (str → captures → option A) → option A)
    (n : nat) (s : str) (e : captures) (k : str → captures → option A) (a : A) :
  (∀ s e k a, body s e k = Some a → lands_after P k s a) →
  star_loop body n s e k = Some a → lands_after P k s a.
Proof.
  intros Hbody. revert s e. induction n as [|n IH]; intros s e; simpl.
  - apply lands_after_here.
  - destruct (body s e _) as [a'|] eqn:Hb.
    + intros [= ->]. apply Hbody in Hb.
      eapply lands_after_trans; [exact Hb|]. intros s' e'. simpl.
      destruct (length s' <? length s); [|done]. apply IH.
    + apply lands_after_here.
Qed.

Lemma run_span r : ∀ A s e (k : str → captures → option A) a,
  plain r = true → run r s e k = Some a → lands_after (accepts r) k s a.
Proof.
  induction r as [c|p|r1 IH1 r2 IH2|r1 IH1 r2 IH2|r1 IH1|r1 IH1|r1 IH1|r1 IH1|g r1 IH1|g];
    intros A s e k a; simpl; try done.
  - intros _. destruct s as [|c' s']; [done|].
    destruct (N.eqb_spec c c') as [<-|]; [|done].
    intros Hk. exists [c], s', e. split_and!; [done|by repeat constructor|done].
  - intros _. destruct s as [|c' s']; [done|]. destruct (p c') eqn:Hp; [|done].
    intros Hk. exists [c'], s', e. split_and!; [done|by repeat constructor|done].
  - intros [Hp1 Hp2]%andb_prop Hr. apply (IH1 _ _ _ _ _ Hp1) in Hr.
    eapply lands_after_trans.
    + eapply lands_after_impl; [|exact Hr]. by left.
    + intros s' e' Hr2. apply (IH2 _ _ _ _ _ Hp2) in Hr2.
      eapply lands_after_impl; [|exact Hr2]. by right.
  - intros [Hp1 Hp2]%andb_prop.
    destruct (run r1 s e k) as [a'|] eqn:Hr1.
    + intros [= ->]. apply (IH1 _ _ _ _ _ Hp1) in Hr1.
      eapply lands_after_impl; [|exact Hr1]. by left.
    + intros Hr2. apply (IH2 _ _ _ _ _ Hp2) in Hr2.
      eapply lands_after_impl; [|exact Hr2]. by right.
  - intros Hp. apply star_loop_span. intros s0 e0 k0 a0. by apply IH1.
  - intros Hp Hr. apply (IH1 _ _ _ _ _ Hp) in Hr.
    eapply lands_after_trans; [exact Hr|].
    intros s' e'. apply star_loop_span. intros s0 e0 k0 a0. by apply IH1.
  - intros Hp. destruct (run r1 s e k) as [a'|] eqn:Hr1.
    + intros [= ->]. by apply (IH1 _ _ _ _ _ Hp) in Hr1.
    + apply lands_after_here.
  - intros _. destruct (run r1 s e _) as [e'|]; [|done]. apply lands_after_here.
  - intros Hp Hr. apply (IH1 _ _ _ _ _ Hp) in Hr.
    destruct Hr as (p & s' & e' & -> & Hpp & Hk). by eexists p, s', _.
Qed.

Lemma star_loop_para {A}
    (body : str → captures → (str → captures → option A) → option A)
    (n : nat) (s : str) (e : captures) (k : str → captures → option A) (a : A) :
  (∀ s e k a, body s e k = Some a → lands_with_para k e a) →
  star_loop body n s e k = Some a → lands_with_para k e a.
Proof.
  intros Hbody. revert s e. induction n as [|n IH]; intros s e; simpl.
  - intros Hk. by exists s, e.
  - destruct (body s e _) as [a'|] eqn:Hb.
    + intros [= ->]. apply Hbody in Hb as (s' & e' & Hk & He'). simpl in Hk.
      destruct (length s' <? length s); [|done].
      apply IH in Hk as (s'' & e'' & Hk & He''). exists s'', e''.
      split; [done|congruence].
    + intros Hk. by exists s, e.
Qed.

Lemma run_para r : ∀ A s e (k : str → captures → option A) a,
  no_para r = true → run r s e k = Some a → lands_with_para k e a.
Proof.
  induction r as [c|p|r1 IH1 r2 IH2|r1 IH1 r2 IH2|r1 IH1|r1 IH1|r1 IH1|r1 IH1|g r1 IH1|g];
    intros A s e k a; simpl.
  - intros _. destruct s as [|c' s']; [done|]. destruct (c =? c')%N; [|done].
    intros Hk. by exists s', e.
  - intros _. destruct s as [|c' s']; [done|]. destruct (p c'); [|done].
    intros Hk. by exists s', e.
  - intros [Hp1 Hp2]%andb_prop Hr.
    apply (IH1 _ _ _ _ _ Hp1) in Hr as (s1 & e1 & Hr & He1).
    apply (IH2 _ _ _ _ _ Hp2) in Hr as (s2 & e2 & Hk & He2).
    exists s2, e2. split; [done|congruence].
  - intros [Hp1 Hp2]%andb_prop.
    destruct (run r1 s e k) as [a'|] eqn:Hr1.
    + intros [= ->]. by apply (IH1 _ _ _ _ _ Hp1) in Hr1.
    + by apply IH2.
  - intros Hp. apply star_loop_para. intros s0 e0 k0 a0. by apply IH1.
  - intros Hp Hr. apply (IH1 _ _ _ _ _ Hp) in Hr as (s1 & e1 & Hr & He1).
    apply star_loop_para in Hr as (s2 & e2 & Hk & He2).
    + exists s2, e2. split; [done|congruence].
    + intros s0 e0 k0 a0. by apply IH1.
  - intros Hp. destruct (run r1 s e k) as [a'|] eqn:Hr1.
    + intros [= ->]. by apply (IH1 _ _ _ _ _ Hp) in Hr1.
    + intros Hk. by exists s, e.
  - intros Hp. destruct (run r1 s e _) as [e'|] eqn:Hr1; [|done].
    apply (IH1 _ _ _ _ _ Hp) in Hr1 as (s1 & e1 & [= ->] & He1).
    intros Hk. by exists s, e'.
  - destruct g; [done|]. intros Hp Hr.
    apply (IH1 _ _ _ _ _ Hp) in Hr as (s1 & e1 & Hk & He1). by eexists s1, _.
  - intros _. destruct (e g) as [m|]; [|done].
    destruct (strip_prefix m s) as [s'|]; [|done].
    intros Hk. by exists s', e.
Qed.

Section Spans.
Context `{Unicode}.

Lemma scan_matches (fuel : nat) (s : str) (m : Match) :
  Matched m ∈ scan fuel s →
  ∃ s' rest, match_at tokenizer_re s' = Some (m, rest).
Proof.
  revert s. induction fuel as [|fuel IH]; intros [|c s]; simpl;
    try by intros ?%elem_of_nil.
  destruct (match_at tokenizer_re (c :: s)) as [[m' rest]|] eqn:Hm.
  - intros [[= ->]|Hin]%elem_of_cons; [by eauto|by eapply IH].
  - intros [[=]|Hin]%elem_of_cons. by eapply IH.
Qed.

Lemma run_alt {A} (r1 r2 : regex) (s : str) (e : captures)
    (k : str → captures → option A) :
  run (Alt r1 r2) s e k
  = match run r1 s e k with Some a => Some a | None => run r2 s e k end.
Proof. done. Qed.

Lemma unmarked (r : regex) (s : str) (m : Match) (rest : str) :
  no_para r = true → match_at r s = Some (m, rest) → group_para m = None.
Proof.
  unfold match_at. intros Hr Hm.
  apply (run_para _ _ _ _ _ _ Hr) in Hm as (s' & e' & [= <- <-] & He'). done.
Qed.

Lemma paragraph_break_span (s : str) (m : Match) (rest : str) :
  match_at paragraph_break s = Some (m, rest) →
  group_para m = Some (group0 m)
  ∧ Forall (λ c, isspace c = true ∨ c = newline) (group0 m).
Proof.
  unfold match_at, paragraph_break.
  change (run (Named para ?r) s ?e ?k)
    with (run r s e (λ s' e', k s' (capture para (take (length s - length s') s) e'))).
  intros Hm. apply run_span in Hm; [|done].
  destruct Hm as (p & s' & e' & -> & Hp & [= <- <-]). simpl.
  rewrite length_app.
  replace (length p + length s' - length s') with (length p) by lia.
  rewrite take_app_length. split; [done|].
  eapply Forall_impl; [exact Hp|]. simpl.
  intros c [->|[Hc| ->]]; [by right|by left|by right].
Qed.

Lemma marker_span (s : str) (m : Match) (rest : str) :
  match_at tokenizer_re s = Some (m, rest) →
  group_para m ≠ None →
  group_para m = Some (group0 m)
  ∧ Forall (λ c, isspace c = true ∨ c = newline) (group0 m).
Proof.
  intros Hm Hpara.
  assert (∀ r r', no_para r = true →
            match_at (Alt r r') s = Some (m, rest) →
            match_at r' s = Some (m, rest)) as Hskip.
  { intros r r' Hr. unfold match_at at 1. rewrite run_alt.
    destruct (run r s _ _) as [a|] eqn:Hr1; [|done].
    intros [= ->]. exfalso. apply Hpara. by eapply (unmarked r). }
  unfold tokenizer_re in Hm.
  apply Hskip in Hm; [|done]. apply Hskip in Hm; [|done].
  unfold match_at in Hm. rewrite run_alt in Hm.
  destruct (run paragraph_break s _ _) as [a|] eqn:Hr1.
  - injection Hm as ->. by apply paragraph_break_span in Hr1.
  - exfalso. apply Hpara.
    by eapply (unmarked (Alt repeated S_)).
Qed.

Lemma star_loop_total {A}
    (body : str → captures → (str → captures → option A) → option A)
    (n : nat) (s : str) (e : captures) (k : str → captures → option A) :
  (∀ s e, is_Some (k s e)) → is_Some (star_loop body n s e k).
Proof.
  intros Hk. destruct n as [|n]; simpl; [done|].
  by destruct (body s e _).
Qed.

Lemma word_like_matches (c : codepoint) (s : str) :
  isalnum c = true ∨ c = ord "_" → is_Some (match_at word_like (c :: s)).
Proof.
  intros Hc. unfold match_at, word_like.
  change (run (Cat (Plus w) ?r) (c :: s) ?e ?k)
    with (if isalnum c || (c =? ord "_")%N
          then star_loop (run w) (length s) s e (λ s' e', run r s' e' k)
          else None).
  replace (isalnum c || (c =? ord "_")%N) with true; last first.
  { symmetry. apply orb_true_iff. destruct Hc as [->| ->]; [by left|right].
    apply N.eqb_refl. }
  apply star_loop_total. intros s1 e1.
  change (run (Cat (Star ?g) ?o) s1 e1 ?k)
    with (star_loop (run g) (length s1) s1 e1 (λ s' e', run o s' e' k)).
  apply star_loop_total. intros s2 e2.
  change (run (Opt ?r) s2 e2 ?k)
    with (match run r s2 e2 k with Some a => Some a | None => k s2 e2 end).
  by destruct (run _ s2 e2 _).
Qed.
End Spans.

(** C6. For every input text, the scan of the Lexer cuts the text into
    consecutive pieces, each a passed-over character or a matched span:
    put back together in order the pieces are the text itself (no
    character is dropped or duplicated, the spans do not overlap).
    Every passed-over character is whitespace.  Every span is non-empty
    and is yielded either as the token that is its text, or as a marker,
    and a span yielded as a marker holds whitespace and newlines only:
    every character that is not whitespace lies in exactly one token.
    The items [tokenize] yields are those of the spans, in order. *)
Theorem tokenize_covers_text `{Unicode} (data : str) :
  let trace := scan (length data) data in
  concat (scanned_text <$> trace) = data
  ∧ Forall scanned_classified trace
  ∧ tokenize data = token_of <$> omap scanned_match trace.
Proof.
  intros trace.
  destruct (scan_covers (length data) data ltac:(done)) as [Hcat Hok].
  split_and!; [done| |done].
  apply Forall_forall. intros [c|m] Hin.
  - rewrite Forall_forall in Hok. by apply (Hok (Skipped c)).
  - split.
    + rewrite Forall_forall in Hok. by apply (Hok (Matched m)).
    + apply scan_matches in Hin as (s' & rest & Hm).
      unfold token_of. destruct (group_para m) as [p|] eqn:Hp; [|by left].
      right. split; [done|]. apply (marker_span _ _ _ Hm). by rewrite Hp.
Qed.

(** X15. A span that [tokenize] turns into a marker consists of
    whitespace only (newlines and [\s] characters), and it is the text
    of the group [para]: no character that is not whitespace is ever
    lost in a paragraph marker. *)
Theorem markers_cover_whitespace_only `{Unicode} (data : str) :
  Forall (λ x, match x with
               | Skipped _ => True
               | Matched m =>
                   token_of m = None →
                   group_para m = Some (group0 m)
                   ∧ Forall (λ c, isspace c = true ∨ c = newline) (group0 m)
               end)
    (scan (length data) data).
Proof.
  apply Forall_forall. intros [c|m] Hin; [done|].
  apply scan_matches in Hin as (s' & rest & Hm).
  unfold token_of. destruct (group_para m) as [p|] eqn:Hp; [|done].
  intros _. rewrite <- Hp. apply (marker_span _ _ _ Hm). by rewrite Hp.
Qed.

(** X16. At a word character the match is the one of the word-like
    alternative, which always succeeds there, and the token holds no
    whitespace.  A number that starts with a digit is a word-like token:
    the numeric alternative, the only one that lets whitespace into a
    token, is reached only at a character that is not a word
    character. *)
Theorem word_character_starts_word_like `{Unicode} (c : codepoint) (s : str) :
  (∀ c', isalnum c' = true → isspace c' = false) →
  isspace (ord "_") = false →
  isspace (ord "-") = false →
  isalnum c = true ∨ c = ord "_" →
  ∃ m rest,
    match_at tokenizer_re (c :: s) = Some (m, rest)
    ∧ match_at word_like (c :: s) = Some (m, rest)
    ∧ token_of m = Some (group0 m)
    ∧ Forall (λ c', isspace c' = false) (group0 m).
Proof.
  intros Halnum Hunderscore Hdash Hc.
  destruct (word_like_matches c s Hc) as [[m rest] Hm].
  exists m, rest. split_and!; [|done| |].
  - unfold match_at, tokenizer_re in *. by rewrite run_alt, Hm.
  - unfold token_of. by rewrite (unmarked word_like _ _ _ eq_refl Hm).
  - unfold match_at in Hm. apply run_span in Hm; [|done].
    destruct Hm as (p & s' & e' & Hs & Hp & [= <- <-]). cbn [group0].
    change (S (length s)) with (length (c :: s)). rewrite Hs, length_app.
    replace (length p + length s' - length s') with (length p) by lia.
    rewrite take_app_length. eapply Forall_impl; [exact Hp|].
    intros c'. unfold word_like, w, S_. cbn [accepts].
    intros [Hw|[[[]|[Hw|Hw]]|Hw]].
    + apply orb_prop in Hw as [Hw|Hw%N.eqb_eq]; [by apply Halnum|by subst].
    + by apply negb_true_iff.
    + apply orb_prop in Hw as [Hw|Hw%N.eqb_eq]; [by apply Halnum|by subst].
    + by subst.
Qed.

Lemma latin1_alnum_not_space (c : codepoint) :
  latin1_isalnum c = true → latin1_isspace c = false.
Proof.
  unfold latin1_isalnum, latin1_isspace, between.
  rewrite !orb_true_iff, !andb_true_iff, !N.leb_le, !N.eqb_eq.
  intros Hc. rewrite !orb_false_iff, !andb_false_iff, !N.leb_gt, !N.eqb_neq. lia.
Qed.

Lemma word_character_starts_word_like_witness :
  ∃ m rest,
    @match_at (@tokenizer_re latin1) (49%N :: u "0 000") = Some (m, rest)
    ∧ @match_at (@word_like latin1) (49%N :: u "0 000") = Some (m, rest)
    ∧ token_of m = Some (group0 m)
    ∧ Forall (λ c', latin1_isspace c' = false) (group0 m).
Proof.
  apply (@word_character_starts_word_like latin1 49%N (u "0 000")).
  - exact latin1_alnum_not_space.
  - vm_compute. reflexivity.
  - vm_compute. reflexivity.
  - left. vm_compute. reflexivity.
Defined.

(** The text "10 000" is two tokens, "+10 000" is one. *)
Example digit_groups_example :
  @tokenize latin1 (u "10 000") = [Some (u "10"); Some (u "000")]
  ∧ @tokenize latin1 (u "+10 000") = [Some (u "+10 000")].
Proof. vm_compute. done. Qed.

(** ** [tagged_to_tagged_conll] *)

Example tagged_to_tagged_conll_example :
  @tagged_to_tagged_conll latin1
    [u "Hej	IN
"; u "du	PN|UTR|SIN|DEF|SUB	du
"; u "
"; u ".	MAD
"]
  = {| printed := [u "1	Hej	_	IN	IN	_"; u "2	du	du	PN	PN	UTR|SIN|DEF|SUB"; [];
                   u "1	.	_	MAD	MAD	_"];
       raised := None |}.
Proof. vm_compute. reflexivity. Qed.

Lemma split_on_cons (sep : codepoint) (s : str) :
  ∃ field fields, split_on sep s = field :: fields.
Proof.
  destruct s as [|c s]; simpl; [by eauto|].
  destruct (c =? sep)%N; [by eauto|]. destruct (split_on sep s); by eauto.
Qed.

Lemma split_on_fields (sep : codepoint) (s : str) :
  Forall (λ field, sep ∉ field) (split_on sep s).
Proof.
  induction s as [|c s IH]; simpl.
  - repeat constructor. by intros ?%elem_of_nil.
  - destruct (N.eqb_spec c sep) as [->|Hne].
    + constructor; [by intros ?%elem_of_nil|done].
    + destruct (split_on sep s) as [|field fields].
      * repeat constructor. intros [?|?%elem_of_nil]%elem_of_cons; by subst.
      * apply Forall_cons in IH as [Hfield Hfields]. constructor; [|done].
        intros [?|?]%elem_of_cons; by subst.
Qed.

Lemma split_on_whole (sep : codepoint) (s : str) :
  sep ∉ s → split_on sep s = [s].
Proof.
  induction s as [|c s IH]; simpl; [done|].
  intros Hs. destruct (N.eqb_spec c sep) as [->|Hne]; [set_solver|].
  rewrite IH; [done|set_solver].
Qed.

Lemma split_on_app (sep : codepoint) (field rest : str) :
  sep ∉ field → split_on sep (field ++ sep :: rest) = field :: split_on sep rest.
Proof.
  induction field as [|c field IH]; simpl.
  - by rewrite N.eqb_refl.
  - intros Hs. destruct (N.eqb_spec c sep) as [->|Hne]; [set_solver|].
    rewrite IH; [done|set_solver].
Qed.

Lemma split_on_tabbed (sep : codepoint) (s : str) :
  sep ∈ s → ∃ field field' fields, split_on sep s = field :: field' :: fields.
Proof.
  induction s as [|c s IH]; [by intros ?%elem_of_nil|]. simpl.
  destruct (N.eqb_spec c sep) as [->|Hne].
  - intros _. destruct (split_on_cons sep s) as (field & fields & ->). by eauto.
  - intros [?|Hs]%elem_of_cons; [done|].
    destruct (IH Hs) as (field & field' & fields & ->). by eauto.
Qed.

Lemma split_on_join (sep : codepoint) (fields : list str) :
  fields ≠ [] → Forall (λ field, sep ∉ field) fields →
  split_on sep (join sep fields) = fields.
Proof.
  induction fields as [|field [|field' fields] IH]; [done| |].
  - intros _ [Hfield _]%Forall_cons. by apply split_on_whole.
  - intros _ [Hfield Hfields]%Forall_cons.
    change (join sep (field :: field' :: fields))
      with (field ++ sep :: join sep (field' :: fields)).
    rewrite split_on_app by done. by rewrite IH.
Qed.

Lemma split_once_Some (sep : codepoint) (s before behind : str) :
  split_once sep s = Some (before, behind) →
  s = before ++ sep :: behind ∧ sep ∉ before.
Proof.
  revert before. induction s as [|c s IH]; intros before; simpl; [done|].
  destruct (N.eqb_spec c sep) as [->|Hne].
  - intros [= <- <-]. split; [done|by intros ?%elem_of_nil].
  - destruct (split_once sep s) as [[before' behind']|]; [|done].
    intros [= <- <-]. destruct (IH before' eq_refl) as [-> Hsep].
    split; [done|]. intros [?|?]%elem_of_cons; by subst.
Qed.

Lemma split_once_None (sep : codepoint) (s : str) :
  split_once sep s = None → sep ∉ s.
Proof.
  induction s as [|c s IH]; simpl; [by intros _ ?%elem_of_nil|].
  destruct (N.eqb_spec c sep) as [->|Hne]; [done|].
  destruct (split_once sep s) as [[]|]; [done|].
  intros _ [?|?]%elem_of_cons; [by subst|by apply IH].
Qed.

Lemma digits_are_digits (n : Decimal.uint) :
  Forall (λ c, (48 ≤ c ≤ 57)%N) (digits n).
Proof. induction n; simpl; constructor; (lia || done). Qed.

Lemma percent_d_no_tab (n : nat) : tab ∉ percent_d n.
Proof.
  intros Hin. pose proof (digits_are_digits (Nat.to_uint n)) as Hd.
  rewrite Forall_forall in Hd. apply Hd in Hin. unfold tab in Hin. lia.
Qed.

Section ConllProperties.
Context `{Unicode}.

Lemma columns_Some (t_id : nat) (line : str) (cols : list str) :
  columns t_id line = Some cols →
  ∃ token tag fields pos morph,
    split_on tab line = token :: tag :: fields
    ∧ cols = [percent_d t_id; token; default (u "_") (head fields); pos; pos; morph]
    ∧ match split_once bar tag with
      | Some _ => tag = pos ++ bar :: morph ∧ bar ∉ pos
      | None => pos = tag ∧ morph = u "_"
      end
    ∧ Forall (λ field, tab ∉ field) cols.
Proof.
  unfold columns.
  pose proof (split_on_fields tab line) as Hfields.
  destruct (split_on tab line) as [|token [|tag fields]]; [done|done|].
  apply Forall_cons in Hfields as [Htoken [Htag Hfields]%Forall_cons].
  assert (tab ∉ u "_") as Hunderscore.
  { intros [?|?%elem_of_nil]%elem_of_cons; done. }
  assert (tab ∉ default (u "_") (head fields)) as Hlemma.
  { destruct fields as [|lemma fields]; [done|].
    by apply Forall_cons in Hfields as [? _]. }
  destruct (split_once bar tag) as [[pos morph]|] eqn:Htagsplit.
  - intros [= <-]. exists token, tag, fields, pos, morph.
    destruct (split_once_Some _ _ _ _ Htagsplit) as [Heq Hbar].
    rewrite Htagsplit. split_and!; [done|by destruct fields|done|done|].
    assert ((tab ∉ pos) ∧ (tab ∉ morph)) as [Hpos Hmorph].
    { subst tag. split; intros Hin; apply Htag; set_solver. }
    repeat constructor; try done; [apply percent_d_no_tab|by destruct fields].
  - intros [= <-]. exists token, tag, fields, tag, (u "_").
    rewrite Htagsplit. split_and!; [done|by destruct fields|done|done|].
    repeat constructor; try done; [apply percent_d_no_tab|by destruct fields].
Qed.

Lemma columns_readable (t_id : nat) (line : str) :
  tab ∈ line → is_Some (columns t_id line).
Proof.
  intros (token & tag & fields & Hsplit)%(split_on_tabbed tab).
  unfold columns. rewrite Hsplit. by destruct (split_once bar tag) as [[]|].
Qed.

Lemma columns_unreadable (t_id : nat) (line : str) :
  tab ∉ line → columns t_id line = None.
Proof. intros Hline. unfold columns. by rewrite split_on_whole. Qed.

Lemma conll_from_s_id (s_id s_id' t_id : nat) (tagged : list str) :
  conll_from s_id t_id tagged = conll_from s_id' t_id tagged.
Proof.
  revert s_id s_id' t_id. induction tagged as [|line tagged IH];
    intros s_id s_id' t_id; simpl; [done|].
  destruct (strip line); [by rewrite (IH _ (s_id' + 1))|].
  destruct (columns t_id _); [|done]. by rewrite (IH _ s_id').
Qed.
End ConllProperties.

Section ConllRows.
Context `{Unicode}.

Lemma conll_from_line (s_id t_id : nat) (line : str) (tagged : list str) :
  tab ∈ strip line →
  ∃ cols,
    columns t_id (strip line) = Some cols
    ∧ split_on tab (join tab cols) = cols
    ∧ join tab cols ≠ []
    ∧ conll_from s_id t_id (line :: tagged)
      = {| printed := join tab cols :: printed (conll_from s_id (t_id + 1) tagged);
           raised := raised (conll_from s_id (t_id + 1) tagged) |}.
Proof.
  intros Htab. destruct (columns_readable t_id _ Htab) as [cols Hcols].
  exists cols. destruct (columns_Some _ _ _ Hcols)
    as (token & tag & fields & pos & morph & _ & Hc & _ & Hnotab).
  split_and!; [done| | |].
  - apply split_on_join; [by subst|done].
  - subst cols. by destruct (percent_d t_id).
  - simpl. rewrite Hcols. destruct (strip line); [by apply elem_of_nil in Htab|done].
Qed.

Lemma conll_from_readable (s_id t_id : nat) (tagged : list str) :
  Forall readable tagged →
  raised (conll_from s_id t_id tagged) = None
  ∧ Forall2 (λ line row, row = [] ↔ strip line = [])
      tagged (printed (conll_from s_id t_id tagged)).
Proof.
  intros Hr. revert s_id t_id. induction Hr as [|line tagged Hline Hr IH];
    intros s_id t_id; [by split; [|constructor]|].
  destruct Hline as [Hblank|Htab].
  - simpl. rewrite Hblank. simpl. destruct (IH (s_id + 1) 1) as [IH1 IH2].
    split; [done|]. by constructor.
  - destruct (conll_from_line s_id t_id line tagged Htab) as (cols & _ & _ & Hne & ->).
    simpl. destruct (IH s_id (t_id + 1)) as [IH1 IH2].
    split; [done|]. constructor; [|done].
    split; [done|]. intros Hblank. rewrite Hblank in Htab.
    by apply elem_of_nil in Htab.
Qed.

Lemma conll_from_app (s_id t_id : nat) (before rest : list str) :
  raised (conll_from s_id t_id before) = None →
  ∃ s_id' t_id',
    conll_from s_id t_id (before ++ rest)
    = {| printed := printed (conll_from s_id t_id before)
                    ++ printed (conll_from s_id' t_id' rest);
         raised := raised (conll_from s_id' t_id' rest) |}.
Proof.
  revert s_id t_id. induction before as [|line before IH]; intros s_id t_id; simpl.
  - intros _. exists s_id, t_id. by destruct (conll_from s_id t_id rest).
  - destruct (strip line) as [|c l].
    + simpl. intros Hr. destruct (IH _ _ Hr) as (s_id' & t_id' & ->). by eauto.
    + destruct (columns t_id (c :: l)); [|done].
      simpl. intros Hr. destruct (IH _ _ Hr) as (s_id' & t_id' & ->). by eauto.
Qed.

Lemma conll_from_ids (s_id t_id : nat) (tagged : list str) :
  Forall (λ line, tab ∈ strip line) tagged →
  (λ row, head (split_on tab row)) <$> printed (conll_from s_id t_id tagged)
  = (λ n, Some (percent_d n)) <$> seq t_id (length tagged).
Proof.
  intros Hlines. revert t_id. induction Hlines as [|line tagged Htab Hlines IH];
    intros t_id; [done|].
  destruct (conll_from_line s_id t_id line tagged Htab)
    as (cols & Hcols & Hsplit & _ & ->).
  cbn [printed fmap list_fmap length seq]. rewrite Hsplit, IH, Nat.add_1_r.
  f_equal. destruct (columns_Some _ _ _ Hcols) as (? & ? & ? & ? & ? & _ & -> & _).
  done.
Qed.
End ConllRows.

(** X17. The row that [tagged_to_tagged_conll] prints for a line with a
    tab in it splits at its tabs into exactly six columns: the number of
    the token, the first field, the third field or an underscore when
    there is none, the part of the second field before its first bar
    twice, and the part behind that bar, or the whole second field twice
    and an underscore when it has no bar. *)
Theorem conll_row_has_six_columns `{Unicode} (s_id t_id : nat) (line : str) :
  tab ∈ strip line →
  ∃ token tag fields pos morph row,
    split_on tab (strip line) = token :: tag :: fields
    ∧ conll_from s_id t_id [line] = {| printed := [row]; raised := None |}
    ∧ split_on tab row
      = [percent_d t_id; token; default (u "_") (head fields); pos; pos; morph]
    ∧ match split_once bar tag with
      | Some _ => tag = pos ++ bar :: morph ∧ bar ∉ pos
      | None => pos = tag ∧ morph = u "_"
      end.
Proof.
  intros Htab.
  destruct (conll_from_line s_id t_id line [] Htab) as (cols & Hcols & Hsplit & _ & ->).
  destruct (columns_Some _ _ _ Hcols)
    as (token & tag & fields & pos & morph & Hfields & -> & Htag & _).
  eexists token, tag, fields, pos, morph, _.
  split_and!; [exact Hfields|reflexivity|exact Hsplit|exact Htag].
Qed.

Lemma conll_row_has_six_columns_witness :
  ∃ token tag fields pos morph row,
    split_on tab (@strip latin1 (u "du	PN|UTR|SIN	du
")) = token :: tag :: fields
    ∧ @conll_from latin1 1 2 [u "du	PN|UTR|SIN	du
"] = {| printed := [row]; raised := None |}
    ∧ split_on tab row
      = [percent_d 2; token; default (u "_") (head fields); pos; pos; morph]
    ∧ match split_once bar tag with
      | Some _ => tag = pos ++ bar :: morph ∧ bar ∉ pos
      | None => pos = tag ∧ morph = u "_"
      end.
Proof.
  apply (@conll_row_has_six_columns latin1 1 2).
  apply (bool_decide_unpack _). vm_compute. exact I.
Defined.

(** X18. A line that is not blank and has no tab in it stops
    [tagged_to_tagged_conll] with the [IndexError] of [fields[1]]: the
    rows of the lines before it are printed, nothing is printed for it or
    for the lines behind it. *)
Theorem conll_line_without_tab_raises `{Unicode} (before after : list str)
    (line : str) :
  Forall readable before →
  strip line ≠ [] →
  tab ∉ strip line →
  tagged_to_tagged_conll (before ++ line :: after)
  = {| printed := printed (tagged_to_tagged_conll before);
       raised := Some IndexError |}.
Proof.
  intros Hbefore Hline Htab. unfold tagged_to_tagged_conll.
  destruct (conll_from_readable 1 1 before Hbefore) as [Hraised _].
  destruct (conll_from_app 1 1 before (line :: after) Hraised) as (s_id & t_id & ->).
  simpl. rewrite (columns_unreadable t_id _ Htab).
  destruct (strip line); [done|]. simpl. by rewrite app_nil_r.
Qed.

Lemma conll_line_without_tab_raises_witness :
  @tagged_to_tagged_conll latin1 [u "Hej	IN"; u "du"; u ".	MAD"]
  = {| printed := printed (@tagged_to_tagged_conll latin1 [u "Hej	IN"]);
       raised := Some IndexError |}.
Proof.
  apply (@conll_line_without_tab_raises latin1 [u "Hej	IN"] [u ".	MAD"] (u "du")).
  - apply Forall_cons. split; [|apply Forall_nil_2].
    right. apply (bool_decide_unpack _). vm_compute. exact I.
  - vm_compute. discriminate.
  - apply (bool_decide_unpack _). vm_compute. exact I.
Defined.

(** X19. On a file all of whose lines are blank or have a tab in them,
    [tagged_to_tagged_conll] raises nothing and prints one line for each
    line it reads, in order: an empty line for a blank line and a row,
    which is not empty, for every other line. *)
Theorem conll_line_for_line `{Unicode} (tagged : list str) :
  Forall readable tagged →
  raised (tagged_to_tagged_conll tagged) = None
  ∧ Forall2 (λ line row, row = [] ↔ strip line = [])
      tagged (printed (tagged_to_tagged_conll tagged)).
Proof. apply conll_from_readable. Qed.

Lemma conll_line_for_line_witness :
  raised (@tagged_to_tagged_conll latin1 [u "Hej	IN"; u " "; u ".	MAD"]) = None
  ∧ Forall2 (λ line row, row = [] ↔ @strip latin1 line = [])
      [u "Hej	IN"; u " "; u ".	MAD"]
      (printed (@tagged_to_tagged_conll latin1 [u "Hej	IN"; u " "; u ".	MAD"])).
Proof.
  apply (@conll_line_for_line latin1).
  repeat (apply Forall_cons; split;
          [first [by left; vm_compute
                 |right; apply (bool_decide_unpack _); vm_compute; exact I]|]).
  apply Forall_nil_2.
Defined.

(** X20. A blank line starts the numbering afresh: what follows it is
    converted as a file of its own, whatever came before, and the count
    of the sentences, [s_id], has no part in what is printed. *)
Theorem conll_restarts_after_blank `{Unicode} (before after : list str)
    (blank : str) :
  Forall readable before →
  strip blank = [] →
  tagged_to_tagged_conll (before ++ blank :: after)
  = {| printed := printed (tagged_to_tagged_conll before)
                  ++ [] :: printed (tagged_to_tagged_conll after);
       raised := raised (tagged_to_tagged_conll after) |}.
Proof.
  intros Hbefore Hblank. unfold tagged_to_tagged_conll.
  destruct (conll_from_readable 1 1 before Hbefore) as [Hraised _].
  destruct (conll_from_app 1 1 before (blank :: after) Hraised) as (s_id & t_id & ->).
  simpl. rewrite Hblank. simpl. by rewrite (conll_from_s_id (s_id + 1) 1).
Qed.

Lemma conll_restarts_after_blank_witness :
  @tagged_to_tagged_conll latin1 ([u "Hej	IN"; u "du	PN"] ++ u "
" :: [u ".	MAD"])
  = {| printed := printed (@tagged_to_tagged_conll latin1 [u "Hej	IN"; u "du	PN"])
                  ++ [] :: printed (@tagged_to_tagged_conll latin1 [u ".	MAD"]);
       raised := raised (@tagged_to_tagged_conll latin1 [u ".	MAD"]) |}.
Proof.
  apply (@conll_restarts_after_blank latin1).
  - repeat (apply Forall_cons; split;
            [right; apply (bool_decide_unpack _); vm_compute; exact I|]).
    apply Forall_nil_2.
  - vm_compute. reflexivity.
Defined.

(** X21. Within a sentence the tokens are numbered from 1 in the order of
    their lines: the first columns of the rows printed for [n] lines
    with tabs are the numbers 1 to [n] in decimal. *)
Theorem conll_numbers_tokens `{Unicode} (tagged : list str) :
  Forall (λ line, tab ∈ strip line) tagged →
  (λ row, head (split_on tab row)) <$> printed (tagged_to_tagged_conll tagged)
  = (λ n, Some (percent_d n)) <$> seq 1 (length tagged).
Proof. apply conll_from_ids. Qed.

Lemma conll_numbers_tokens_witness :
  (λ row, head (split_on tab row))
    <$> printed (@tagged_to_tagged_conll latin1 [u "Hej	IN"; u "du	PN"])
  = (λ n, Some (percent_d n)) <$> seq 1 (length [u "Hej	IN"; u "du	PN"]).
Proof.
  apply (@conll_numbers_tokens latin1).
  repeat (apply Forall_cons; split;
          [apply (bool_decide_unpack _); vm_compute; exact I|]).
  apply Forall_nil_2.
Defined.
